(** * String interning for a MessagePack codec: [intern.go]

    A shallow embedding of the interned-string encoder and decoder of
    [intern.go], and the properties of its dictionary discipline.

    Conventions.
    - Go's [int] is modelled by [Z] (a 64-bit platform is assumed, so
      that [int(uint32)] is never negative); explicit conversions such
      as [uint8(idx)] are written out as reductions modulo a power of two.
    - A Go [string] is a sequence of bytes: [String.string].  The wire is
      a [list byte].
    - A method with receiver [*Encoder] or [*Decoder] that returns an
      [error] is a function in the state-and-error monad [M]: it always
      returns the final receiver state, also when it fails. *)

From Stdlib Require Import ZArith List Bool Lia.
From Stdlib Require Import Strings.String Strings.Ascii Strings.Byte.
From stdpp Require Import gmap strings list pretty.

Local Open Scope Z_scope.

(** ** Bytes *)

Definition byte_to_Z (b : byte) : Z := Z.of_N (Byte.to_N b).

(** [byte(z)], [uint8(z)]: the low eight bits. *)
Definition byte_of_Z (z : Z) : byte :=
  match Byte.of_N (Z.to_N (z mod 256)) with
  | Some b => b
  | None => x00
  end.

(** [[]byte(s)] and [string(b)]. *)
Definition bytes_of_string (s : string) : list byte := list_byte_of_string s.
Definition string_of_bytes (b : list byte) : string := string_of_list_byte b.

(** [len(s)] for a string. *)
Definition len (s : string) : Z := Z.of_nat (String.length s).

(** ** Wire codes of the host format *)

Module msgpcode.
(** Modelled from the spec: package [msgpcode] is imported by [intern.go]
    and is not part of it; the code of the host format for nil. *)
Definition Nil : byte := xc0.
(** Modelled from the spec: [msgpcode], first code of the fixed short
    string form (the low five bits hold the length). *)
Definition FixedStrLow : byte := xa0.
(** Modelled from the spec: [msgpcode], last code of the fixed short
    string form. *)
Definition FixedStrHigh : byte := xbf.
(** Modelled from the spec: [msgpcode], mask of the length bits of a
    fixed short string code. *)
Definition FixedStrMask : byte := x1f.
(** Modelled from the spec: [msgpcode], binary with 8-bit length. *)
Definition Bin8 : byte := xc4.
(** Modelled from the spec: [msgpcode], binary with 16-bit length. *)
Definition Bin16 : byte := xc5.
(** Modelled from the spec: [msgpcode], binary with 32-bit length. *)
Definition Bin32 : byte := xc6.
(** Modelled from the spec: [msgpcode], extension with 8-bit length. *)
Definition Ext8 : byte := xc7.
(** Modelled from the spec: [msgpcode], extension with 16-bit length. *)
Definition Ext16 : byte := xc8.
(** Modelled from the spec: [msgpcode], extension with 32-bit length. *)
Definition Ext32 : byte := xc9.
(** Modelled from the spec: [msgpcode], fixed extension, 1-byte payload. *)
Definition FixExt1 : byte := xd4.
(** Modelled from the spec: [msgpcode], fixed extension, 2-byte payload. *)
Definition FixExt2 : byte := xd5.
(** Modelled from the spec: [msgpcode], fixed extension, 4-byte payload. *)
Definition FixExt4 : byte := xd6.
(** Modelled from the spec: [msgpcode], fixed extension, 8-byte payload. *)
Definition FixExt8 : byte := xd7.
(** Modelled from the spec: [msgpcode], fixed extension, 16-byte payload. *)
Definition FixExt16 : byte := xd8.
(** Modelled from the spec: [msgpcode], string with 8-bit length. *)
Definition Str8 : byte := xd9.
(** Modelled from the spec: [msgpcode], string with 16-bit length. *)
Definition Str16 : byte := xda.
(** Modelled from the spec: [msgpcode], string with 32-bit length. *)
Definition Str32 : byte := xdb.

(** Modelled from the spec: [msgpcode.IsFixedString], the test for a
    code of the fixed short string form. *)
Definition IsFixedString (c : byte) : bool :=
  (byte_to_Z FixedStrLow <=? byte_to_Z c) && (byte_to_Z c <=? byte_to_Z FixedStrHigh).
End msgpcode.

(** ** Constants of [intern.go] *)

Definition MaxUint8 : Z := 255.
Definition MaxUint16 : Z := 65535.
Definition MaxUint32 : Z := 4294967295.
Definition MinInt8 : Z := -128.

Definition minInternedStringLen : Z := 3.
Definition maxDictLen : Z := MaxUint16.
Definition internedStringExtID : Z := MinInt8.

(** ** Errors *)

Inductive error : Type :=
| errUnexpectedCode
    (* errors.New("msgpack: unexpected code") *)
| ErrExtType (typeID : Z)
    (* "msgpack: got ext type=%d, wanted %d" *)
| ErrIndexLength (length : Z)
    (* "msgpack: unsupported intern string index length=%d" *)
| ErrIndexMissing (idx : Z)
    (* "msgpack: intern string with index=%d does not exist" *)
| ErrIndexTooLarge (idx : Z)
    (* "msgpack: intern string index=%d is too large" *)
| ErrInvalidCode (c : byte)
    (* "msgpack: invalid code=%x decoding intern string" *)
| ErrEOF
    (* io.EOF *)
| ErrUnexpectedEOF
    (* io.ErrUnexpectedEOF *)
| ErrUnreadByte
    (* UnreadByte at the beginning of the input *)
| ErrHost (code : Z)
    (* any error of the host format's own decoders *)
| PanicIndex (idx : Z).
    (* run-time panic: slice index out of range *)

Inductive result (A : Type) : Type :=
| Ok (a : A)
| Err (e : error).
Arguments Ok {A} a.
Arguments Err {A} e.

(** ** The state-and-error monad *)

Definition M (S A : Type) : Type := S -> result A * S.

Definition ret {S A} (a : A) : M S A := fun s => (Ok a, s).
Definition fail {S A} (e : error) : M S A := fun s => (Err e, s).
Definition bind {S A B} (m : M S A) (k : A -> M S B) : M S B :=
  fun s =>
    match m s with
    | (Ok a, s') => k a s'
    | (Err e, s') => (Err e, s')
    end.

Notation "x <- m ;; k" := (bind m (fun x => k))
  (at level 100, m at next level, right associativity).
Notation "m ;;; k" := (bind m (fun _ => k))
  (at level 100, right associativity).

(** ** The byte source *)

(** Modelled from the spec: the transport is outside [intern.go]; the
    decoder needs a byte source with a one-byte rewind.  The source is
    an in-memory reader: the bytes consumed so far (most recent first)
    and the bytes still to come. *)
Record Reader : Type := mkReader {
  r_done : list byte;
  r_rest : list byte
}.

(** Modelled from the spec: [ReadByte] of the byte source. *)
Definition ReadByte : M Reader byte := fun r =>
  match r_rest r with
  | b :: rest => (Ok b, mkReader (b :: r_done r) rest)
  | [] => (Err ErrEOF, r)
  end.

(** Modelled from the spec: [UnreadByte] of the byte source, the one-byte
    rewind; it fails when nothing has been read. *)
Definition UnreadByte : M Reader unit := fun r =>
  match r_done r with
  | b :: done => (Ok tt, mkReader done (b :: r_rest r))
  | [] => (Err ErrUnreadByte, r)
  end.

(** Modelled from the spec: reading exactly [n] bytes from the byte
    source, as [io.ReadFull] does: a short input is consumed
    to its end and reported as [io.EOF] when nothing was left, and as
    [io.ErrUnexpectedEOF] otherwise. *)
Definition ReadFull (n : nat) : M Reader (list byte) := fun r =>
  if (n <=? List.length (r_rest r))%nat then
    (Ok (take n (r_rest r)),
     mkReader (rev (take n (r_rest r)) ++ r_done r) (drop n (r_rest r)))
  else
    (Err (match r_rest r with [] => ErrEOF | _ => ErrUnexpectedEOF end),
     mkReader (rev (r_rest r) ++ r_done r) []).

(** ** Encoder and decoder instances *)

(** The fields of [Encoder] that [intern.go] uses: the dictionary
    [dict map[string]int] and the writer [w], an in-memory buffer that
    accepts every write. *)
Record Encoder : Type := mkEncoder {
  e_dict : gmap string Z;
  e_w : list byte
}.

(** The fields of [Decoder] that [intern.go] uses: the dictionary
    [dict []string] and the byte source [s]. *)
Record Decoder : Type := mkDecoder {
  d_dict : list string;
  d_s : Reader
}.

Definition NewEncoder : Encoder := mkEncoder ∅ [].
Definition NewDecoder (input : list byte) : Decoder := mkDecoder [] (mkReader [] input).

(** Run a reader action on the decoder's byte source. *)
Definition on_s {A} (m : M Reader A) : M Decoder A := fun d =>
  let '(r, s') := m (d_s d) in (r, mkDecoder (d_dict d) s').

(** ** Host primitives used by [intern.go] *)

(** Modelled from the spec: the writer methods of [Encoder] live outside
    [intern.go].  [write] appends bytes to the output. *)
Definition write (b : list byte) : M Encoder unit := fun e =>
  (Ok tt, mkEncoder (e_dict e) (e_w e ++ b)).

(** Modelled from the spec: [Encoder.writeCode] appends one code byte. *)
Definition writeCode (c : byte) : M Encoder unit := write [c].

(** Modelled from the spec: [Encoder.write1] appends a code byte and a
    one-byte unsigned integer. *)
Definition write1 (code : byte) (n : Z) : M Encoder unit :=
  write [code; byte_of_Z n].

(** Modelled from the spec: [Encoder.write2] appends a code byte and a
    two-byte big-endian unsigned integer. *)
Definition write2 (code : byte) (n : Z) : M Encoder unit :=
  write [code; byte_of_Z (Z.shiftr n 8); byte_of_Z n].

(** Modelled from the spec: [Encoder.write4] appends a code byte and a
    four-byte big-endian unsigned integer. *)
Definition write4 (code : byte) (n : Z) : M Encoder unit :=
  write [code; byte_of_Z (Z.shiftr n 24); byte_of_Z (Z.shiftr n 16);
         byte_of_Z (Z.shiftr n 8); byte_of_Z n].

(** Modelled from the spec: [Encoder.writeString] appends the bytes of
    a string. *)
Definition writeString (s : string) : M Encoder unit := write (bytes_of_string s).

(** Modelled from the spec: [Encoder.encodeStringLen], outside
    [intern.go], writes the standard length prefix of a string: the
    fixed short form below 32 bytes, then the 8-, 16- and 32-bit length
    prefixes.  The 32-bit prefix holds [uint32(l)]. *)
Definition encodeStringLen (l : Z) : M Encoder unit :=
  if l <? 32 then
    writeCode (byte_of_Z (Z.lor (byte_to_Z msgpcode.FixedStrLow) l))
  else if l <? 256 then
    write1 msgpcode.Str8 l
  else if l <=? MaxUint16 then
    write2 msgpcode.Str16 l
  else
    write4 msgpcode.Str32 (l mod 2 ^ 32).

(** Modelled from the spec: [Encoder.encodeNormalString] is the host
    format's plain string encoder, outside [intern.go]: the length
    prefix followed by the bytes of the string. *)
Definition encodeNormalString (s : string) : M Encoder unit :=
  encodeStringLen (len s) ;;;
  writeString s.

(** Modelled from the spec: the reader methods of [Decoder] live outside
    [intern.go].  [Decoder.readCode] reads one byte. *)
Definition readCode : M Decoder byte := on_s ReadByte.

(** Modelled from the spec: [Decoder.readN] reads exactly [n] bytes. *)
Definition readN (n : Z) : M Decoder (list byte) := on_s (ReadFull (Z.to_nat n)).

(** [binary.BigEndian.Uint16] and [binary.BigEndian.Uint32]. *)
Definition BigEndian_Uint16 (b : list byte) : Z :=
  match b with
  | b0 :: b1 :: _ => Z.lor (byte_to_Z b1) (Z.shiftl (byte_to_Z b0) 8)
  | _ => 0
  end.

Definition BigEndian_Uint32 (b : list byte) : Z :=
  match b with
  | b0 :: b1 :: b2 :: b3 :: _ =>
      Z.lor (Z.lor (Z.lor (byte_to_Z b3) (Z.shiftl (byte_to_Z b2) 8))
                   (Z.shiftl (byte_to_Z b1) 16))
            (Z.shiftl (byte_to_Z b0) 24)
  | _ => 0
  end.

(** Modelled from the spec: [Decoder.uint8] reads a one-byte unsigned
    integer. *)
Definition uint8 : M Decoder Z :=
  c <- readCode ;; ret (byte_to_Z c).

(** Modelled from the spec: [Decoder.uint16] reads a two-byte big-endian
    unsigned integer. *)
Definition uint16 : M Decoder Z :=
  b <- readN 2 ;; ret (BigEndian_Uint16 b).

(** Modelled from the spec: [Decoder.uint32] reads a four-byte big-endian
    unsigned integer. *)
Definition uint32 : M Decoder Z :=
  b <- readN 4 ;; ret (BigEndian_Uint32 b).

(** Modelled from the spec: [Decoder.stringWithLen] reads a string of
    [n] bytes, the empty string when [n] is not positive. *)
Definition stringWithLen (n : Z) : M Decoder string :=
  if n <=? 0 then ret EmptyString
  else b <- readN n ;; ret (string_of_bytes b).

(** [int8(b)] for a byte [b]. *)
Definition int8_of_byte (b : byte) : Z :=
  if byte_to_Z b <? 128 then byte_to_Z b else byte_to_Z b - 256.

(** Modelled from the spec: [Decoder.parseExtLen], outside [intern.go],
    gives the payload length of an extension envelope: implied by a
    fixed-extension code, else read as an 8-, 16- or 32-bit integer. *)
Definition parseExtLen (c : byte) : M Decoder Z :=
  if Byte.eqb c msgpcode.FixExt1 then ret 1
  else if Byte.eqb c msgpcode.FixExt2 then ret 2
  else if Byte.eqb c msgpcode.FixExt4 then ret 4
  else if Byte.eqb c msgpcode.FixExt8 then ret 8
  else if Byte.eqb c msgpcode.FixExt16 then ret 16
  else if Byte.eqb c msgpcode.Ext8 then uint8
  else if Byte.eqb c msgpcode.Ext16 then uint16
  else if Byte.eqb c msgpcode.Ext32 then uint32
  else fail (ErrHost (byte_to_Z c)).

(** Modelled from the spec: [Decoder.extHeader] is the host format's
    reader of an extension envelope, outside [intern.go]: the payload
    length, then the one-byte type tag as an [int8]. *)
Definition extHeader (c : byte) : M Decoder (Z * Z) :=
  extLen <- parseExtLen c ;;
  extID <- readCode ;;
  ret (int8_of_byte extID, extLen).

(** ** [intern.go]: the encoder *)

Definition set_e_dict (f : gmap string Z -> gmap string Z) : M Encoder unit := fun e =>
  (Ok tt, mkEncoder (f (e_dict e)) (e_w e)).

(** [func (e *Encoder) encodeInternedStringIndex(idx int) error] *)
Definition encodeInternedStringIndex (idx : Z) : M Encoder unit :=
  if idx <=? MaxUint8 then
    writeCode msgpcode.FixExt1 ;;;
    write1 (byte_of_Z internedStringExtID) (idx mod 2 ^ 8)
  else if idx <=? MaxUint16 then
    writeCode msgpcode.FixExt2 ;;;
    write2 (byte_of_Z internedStringExtID) (idx mod 2 ^ 16)
  else if idx mod 2 ^ 64 <=? MaxUint32 then
    writeCode msgpcode.FixExt4 ;;;
    write4 (byte_of_Z internedStringExtID) (idx mod 2 ^ 32)
  else
    fail (ErrIndexTooLarge idx).

(** [func (e *Encoder) encodeInternedString(s string, intern bool) error] *)
Definition encodeInternedString (s : string) (intern : bool) : M Encoder unit := fun e =>
  if minInternedStringLen <=? len s then
    match e_dict e !! s with
    | Some idx => encodeInternedStringIndex idx e
    | None =>
        if intern && (Z.of_nat (size (e_dict e)) <? maxDictLen) then
          (let idx := Z.of_nat (size (e_dict e)) in
           set_e_dict (fun dict => <[s := idx]> dict) ;;;
           encodeNormalString s) e
        else
          encodeNormalString s e
    end
  else
    encodeNormalString s e.

(** [func encodeInternedStringValue(e *Encoder, v reflect.Value) error],
    with [v.String()] passed as [s]. *)
Definition encodeInternedStringValue (s : string) : M Encoder unit :=
  encodeInternedString s true.

(** ** [intern.go]: the decoder *)

(** [func (d *Decoder) decodeInternedStringIndex(length int) (int, error)] *)
Definition decodeInternedStringIndex (length : Z) : M Decoder Z :=
  if length =? 1 then
    c <- on_s ReadByte ;;
    ret (byte_to_Z c)
  else if length =? 2 then
    b <- readN 2 ;;
    ret (BigEndian_Uint16 b)
  else if length =? 4 then
    b <- readN 4 ;;
    ret (BigEndian_Uint32 b)
  else
    fail (ErrIndexLength length).

(** [func (d *Decoder) internedStringAtIndex(idx int) (string, error)].
    Indexing the slice with a negative [idx] panics. *)
Definition internedStringAtIndex (idx : Z) : M Decoder string := fun d =>
  if Z.of_nat (List.length (d_dict d)) <=? idx then
    (Err (ErrIndexMissing idx), d)
  else
    match (if idx <? 0 then None else d_dict d !! Z.to_nat idx) with
    | Some s => (Ok s, d)
    | None => (Err (PanicIndex idx), d)
    end.

Definition set_d_dict (f : list string -> list string) : M Decoder unit := fun d =>
  (Ok tt, mkDecoder (f (d_dict d)) (d_s d)).

(** [func (d *Decoder) decodeInternedStringWithLen(n int, intern bool) (string, error)] *)
Definition decodeInternedStringWithLen (n : Z) (intern : bool) : M Decoder string :=
  if n <=? 0 then ret EmptyString
  else
    s <- stringWithLen n ;;
    (fun d =>
       if intern && (minInternedStringLen <=? len s)
                 && (Z.of_nat (List.length (d_dict d)) <? maxDictLen)
       then set_d_dict (fun dict => dict ++ [s]) d
       else ret tt d) ;;;
    ret s.

(** [func (d *Decoder) decodeInternedString(c byte, intern bool) (string, error)] *)
Definition decodeInternedString (c : byte) (intern : bool) : M Decoder string :=
  if msgpcode.IsFixedString c then
    let n := Z.land (byte_to_Z c) (byte_to_Z msgpcode.FixedStrMask) in
    decodeInternedStringWithLen n intern
  else if Byte.eqb c msgpcode.Nil then
    ret EmptyString
  else if Byte.eqb c msgpcode.FixExt1 || Byte.eqb c msgpcode.FixExt2
          || Byte.eqb c msgpcode.FixExt4 then
    h <- extHeader c ;;
    let '(typeID, length) := h in
    if negb (typeID =? internedStringExtID) then
      fail (ErrExtType typeID)
    else
      idx <- decodeInternedStringIndex length ;;
      internedStringAtIndex idx
  else if Byte.eqb c msgpcode.Str8 || Byte.eqb c msgpcode.Bin8 then
    n <- uint8 ;;
    decodeInternedStringWithLen n intern
  else if Byte.eqb c msgpcode.Str16 || Byte.eqb c msgpcode.Bin16 then
    n <- uint16 ;;
    decodeInternedStringWithLen n intern
  else if Byte.eqb c msgpcode.Str32 || Byte.eqb c msgpcode.Bin32 then
    n <- uint32 ;;
    decodeInternedStringWithLen n intern
  else
    fail errUnexpectedCode.

(** [func decodeInternedStringExt(d *Decoder, v reflect.Value, extLen int) error],
    returning the string that [v.SetString] receives. *)
Definition decodeInternedStringExt (extLen : Z) : M Decoder string :=
  idx <- decodeInternedStringIndex extLen ;;
  internedStringAtIndex idx.

Definition is_errUnexpectedCode (e : error) : bool :=
  match e with errUnexpectedCode => true | _ => false end.

(** [func decodeInternedStringValue(d *Decoder, v reflect.Value) error],
    returning the string that [v.SetString] receives. *)
Definition decodeInternedStringValue : M Decoder string :=
  c <- readCode ;;
  fun d =>
    match decodeInternedString c true d with
    | (Ok s, d') => (Ok s, d')
    | (Err err, d') =>
        if is_errUnexpectedCode err then (Err (ErrInvalidCode c), d')
        else (Err err, d')
    end.

Section InterfaceValue.
(** Modelled from the spec: the values of interface type and the host
    format's generic value decoder [decodeInterfaceValue] are outside
    [intern.go]; they are parameters. *)
Variable value : Type.
Variable ValueOf : string -> value.
Variable decodeInterfaceValue : M Decoder value.

(** [func decodeInternedInterfaceValue(d *Decoder, v reflect.Value) error],
    returning the value that [v.Set] receives. *)
Definition decodeInternedInterfaceValue : M Decoder value :=
  c <- readCode ;;
  fun d =>
    match decodeInternedString c true d with
    | (Ok s, d') => (Ok (ValueOf s), d')
    | (Err err, d') =>
        if negb (is_errUnexpectedCode err) then (Err err, d')
        else (on_s UnreadByte ;;; decodeInterfaceValue) d'
    end.
End InterfaceValue.

(** ** Specification-level vocabulary *)

(** The value of a sequence of bytes read as a big-endian unsigned
    integer. *)
Definition be_value (bs : list byte) : Z :=
  fold_left (fun acc b => acc * 256 + byte_to_Z b) bs 0.

(** The tag byte of the reserved extension type. *)
Definition reserved_tag : byte := byte_of_Z internedStringExtID.

(** The wire form of a literal: what [encodeNormalString] appends. *)
Definition literal_bytes (s : string) : list byte :=
  e_w (snd (encodeNormalString s NewEncoder)).

(** The wire form of a reference: what [encodeInternedStringIndex] appends. *)
Definition reference_bytes (idx : Z) : list byte :=
  e_w (snd (encodeInternedStringIndex idx NewEncoder)).

(** A reference envelope on the wire: a fixed-extension code and a
    payload of the width the code announces. *)
Definition reference_envelope (c : byte) (payload : list byte) : Prop :=
  (c = msgpcode.FixExt1 /\ List.length payload = 1%nat) \/
  (c = msgpcode.FixExt2 /\ List.length payload = 2%nat) \/
  (c = msgpcode.FixExt4 /\ List.length payload = 4%nat).

(** The length prefix of a literal: what [encodeStringLen] appends. *)
Definition string_header (l : Z) : list byte :=
  e_w (snd (encodeStringLen l NewEncoder)).

(** The decode dictionary after a literal [s] has been read: the
    literal is appended when interning is on, the string is long enough
    and the dictionary is not full. *)
Definition learn (intern : bool) (s : string) (dict : list string) : list string :=
  if intern && (minInternedStringLen <=? len s)
            && (Z.of_nat (List.length dict) <? maxDictLen)
  then dict ++ [s] else dict.

(** A decoder action that leaves the dictionary alone. *)
Definition keeps_dict {A} (m : M Decoder A) : Prop :=
  forall d, d_dict (snd (m d)) = d_dict d.

(** What one call of the string decoder may do to the dictionary: leave
    it as it is, or append the string it returns, and the latter only
    when interning is on, the string is long enough and the dictionary
    was not full. *)
Definition dict_effect (intern : bool) (m : M Decoder string) : Prop :=
  forall d,
    d_dict (snd (m d)) = d_dict d \/
    exists s, fst (m d) = Ok s /\ d_dict (snd (m d)) = d_dict d ++ [s] /\
              intern = true /\ minInternedStringLen <= len s /\
              Z.of_nat (List.length (d_dict d)) < maxDictLen.

(** A decoder action that never reports the unexpected-code error. *)
Definition never_unexpected {A} (m : M Decoder A) : Prop :=
  forall d, fst (m d) <> Err errUnexpectedCode.

(** A stand-in for the host format's generic decoder, for examples: it
    reads one byte and returns its value. *)
Definition decodeOneByte : M Decoder (string + Z) :=
  c <- readCode ;; ret (inr (byte_to_Z c)).

(** ** Streams of strings *)

(** A sequence of string fields encoded one after the other by the same
    encoder, through [encodeInternedStringValue]. *)
Fixpoint EncodeStrings (l : list string) : M Encoder unit :=
  match l with
  | [] => ret tt
  | s :: l' => encodeInternedStringValue s ;;; EncodeStrings l'
  end.

(** The same with an intern flag for each string. *)
Fixpoint EncodeAll (reqs : list (string * bool)) : M Encoder unit :=
  match reqs with
  | [] => ret tt
  | (s, intern) :: reqs' => encodeInternedString s intern ;;; EncodeAll reqs'
  end.

(** [n] string fields decoded one after the other by the same decoder,
    through [decodeInternedStringValue]. *)
Fixpoint DecodeStrings (n : nat) : M Decoder (list string) :=
  match n with
  | O => ret []
  | S n' =>
      s <- decodeInternedStringValue ;;
      l <- DecodeStrings n' ;;
      ret (s :: l)
  end.

(** The bytes one encoder call appends to the output. *)
Definition emitted (m : M Encoder unit) (e : Encoder) : list byte :=
  drop (List.length (e_w e)) (e_w (snd (m e))).

(** The output of [EncodeStrings], call by call. *)
Fixpoint wire_chunks (l : list string) (e : Encoder) : list (list byte) :=
  match l with
  | [] => []
  | s :: l' =>
      emitted (encodeInternedStringValue s) e
        :: wire_chunks l' (snd (encodeInternedStringValue s e))
  end.

(** The chunks written for the occurrences of [s] in [l], in order. *)
Fixpoint occurrences (s : string) (l : list string) (chunks : list (list byte))
  : list (list byte) :=
  match l, chunks with
  | s' :: l', c :: cs =>
      if String.eqb s' s then c :: occurrences s l' cs else occurrences s l' cs
  | _, _ => []
  end.

(** A chunk that is a reference: a fixed-extension code of width 1, 2 or
    4 followed by the reserved type tag. *)
Definition is_reference (chunk : list byte) : bool :=
  match chunk with
  | c :: tag :: _ =>
      (Byte.eqb c msgpcode.FixExt1 || Byte.eqb c msgpcode.FixExt2
       || Byte.eqb c msgpcode.FixExt4) && Byte.eqb tag reserved_tag
  | _ => false
  end.

(** The protocol invariant between the two dictionaries: the same number
    of entries, at most 65,535, and the encoder maps a string to [i]
    exactly when the decoder holds it at position [i]. *)
Definition mirror (ed : gmap string Z) (dd : list string) : Prop :=
  size ed = List.length dd /\
  Z.of_nat (List.length dd) <= maxDictLen /\
  forall s i, ed !! s = Some i <-> (0 <= i /\ dd !! Z.to_nat i = Some s).

(** ** A full dictionary *)

(** 65,535 distinct eligible strings, [key0], [key1], ..., and the
    dictionaries an encoder and a decoder hold once these have been
    interned in that order. *)
Definition key_of (n : N) : string := "key" +:+ pretty n.

Fixpoint keys_from (n : nat) (i : N) : list string :=
  match n with
  | O => []
  | S n' => key_of i :: keys_from n' (N.succ i)
  end.

Definition keys : list string := keys_from (Z.to_nat maxDictLen) 0.

Definition intern_next (acc : gmap string Z * Z) (s : string) : gmap string Z * Z :=
  (<[s := snd acc]> (fst acc), snd acc + 1).

Definition full_dict : gmap string Z := fst (fold_left intern_next keys (∅, 0)).

Definition full_encoder : Encoder := mkEncoder full_dict [].

(** ** The interface-typed encoder entry point *)

(** The dynamic value behind an interface, as [encodeInternedInterfaceValue]
    tells the cases apart: nil ([v.IsNil()]), a string
    ([v.Elem().Kind() == reflect.String]), or a value of another kind. *)
Inductive iface (V : Type) : Type :=
| INil
| IString (s : string)
| IOther (v : V).
Arguments INil {V}.
Arguments IString {V} s.
Arguments IOther {V} v.

(** Modelled from the spec: [Encoder.EncodeNil], outside [intern.go],
    writes the host format's nil code. *)
Definition EncodeNil : M Encoder unit := writeCode msgpcode.Nil.

Section InterfaceEncode.
(** Modelled from the spec: the values of other kinds and the host
    format's generic value encoder [Encoder.EncodeValue] are outside
    [intern.go]; they are parameters. *)
Variable V : Type.
Variable EncodeValue : V -> M Encoder unit.

(** [func encodeInternedInterfaceValue(e *Encoder, v reflect.Value) error] *)
Definition encodeInternedInterfaceValue (v : iface V) : M Encoder unit :=
  match v with
  | INil => EncodeNil
  | IString s => encodeInternedString s true
  | IOther x => EncodeValue x
  end.
End InterfaceEncode.

(** ** Vocabulary of the further properties *)

(** The codes [decodeInternedString] has a case for: nil, the string and
    binary literals, and the fixed extensions of width 1, 2 and 4. *)
Definition string_code (c : byte) : bool :=
  msgpcode.IsFixedString c
  || Byte.eqb c msgpcode.Nil
  || Byte.eqb c msgpcode.FixExt1 || Byte.eqb c msgpcode.FixExt2
  || Byte.eqb c msgpcode.FixExt4
  || Byte.eqb c msgpcode.Str8 || Byte.eqb c msgpcode.Bin8
  || Byte.eqb c msgpcode.Str16 || Byte.eqb c msgpcode.Bin16
  || Byte.eqb c msgpcode.Str32 || Byte.eqb c msgpcode.Bin32.

(** The errors of the byte source. *)
Definition io_error (e : error) : Prop :=
  e = ErrEOF \/ e = ErrUnexpectedEOF.

(** A postcondition for decoder actions: what a returned value
    satisfies, and which errors can come out. *)
Definition post {A} (m : M Decoder A) (Q : A -> Prop) (E : error -> Prop) : Prop :=
  forall d, match fst (m d) with
            | Ok a => Q a
            | Err e => E e
            end.

(** The errors [decodeInternedString] can return. *)
Definition decode_error (e : error) : Prop :=
  e = errUnexpectedCode \/
  (exists typeID, typeID <> internedStringExtID /\ e = ErrExtType typeID) \/
  (exists idx, 0 <= idx /\ e = ErrIndexMissing idx) \/
  io_error e.

(** A literal with a length prefix of a given width: the codes of the
    8-, 16- and 32-bit string and binary forms, and a prefix of that many
    bytes. *)
Definition prefixed_literal (c : byte) (hdr : list byte) : Prop :=
  ((c = msgpcode.Str8 \/ c = msgpcode.Bin8) /\ List.length hdr = 1%nat) \/
  ((c = msgpcode.Str16 \/ c = msgpcode.Bin16) /\ List.length hdr = 2%nat) \/
  ((c = msgpcode.Str32 \/ c = msgpcode.Bin32) /\ List.length hdr = 4%nat).

(** * Properties *)

(** Settle the guards of an [if] whose condition is closed, as in a
    dispatch on a known code byte. *)
Ltac decide_guards :=
  repeat match goal with
  | |- context [if ?b then _ else _] =>
      let v := eval vm_compute in b in
      match v with
      | true => change b with true
      | false => change b with false
      end; cbv beta iota
  end.

(** ** Bytes and big-endian integers *)

Lemma byte_to_Z_range (b : byte) : 0 <= byte_to_Z b < 256.
Proof.
  unfold byte_to_Z. pose proof (Byte.to_N_bounded b). lia.
Qed.

Lemma byte_of_to_Z (b : byte) : byte_of_Z (byte_to_Z b) = b.
Proof.
  unfold byte_of_Z. pose proof (byte_to_Z_range b) as Hr.
  rewrite Z.mod_small by exact Hr.
  unfold byte_to_Z. rewrite N2Z.id, Byte.of_to_N. reflexivity.
Qed.

Lemma byte_to_of_Z (z : Z) : byte_to_Z (byte_of_Z z) = z mod 256.
Proof.
  unfold byte_of_Z, byte_to_Z.
  pose proof (Z.mod_pos_bound z 256 ltac:(lia)) as Hr.
  destruct (Byte.of_N (Z.to_N (z mod 256))) as [b|] eqn:E.
  - apply Byte.to_of_N in E. rewrite E. lia.
  - apply Byte.of_N_None_iff in E. lia.
Qed.

Lemma byte_to_Z_inj (a b : byte) : byte_to_Z a = byte_to_Z b -> a = b.
Proof.
  intros H. rewrite <- (byte_of_to_Z a), <- (byte_of_to_Z b). now rewrite H.
Qed.

Lemma lor_shiftl_add (a b k : Z) :
  0 <= k -> 0 <= a < 2 ^ k -> Z.lor a (Z.shiftl b k) = a + b * 2 ^ k.
Proof.
  intros Hk Ha.
  rewrite <- Z.shiftl_mul_pow2 by exact Hk.
  symmetry. apply Z.add_nocarry_lor.
  apply Z.bits_inj'. intros n Hn.
  rewrite Z.land_spec, Z.bits_0.
  destruct (Z.ltb_spec n k) as [Hlt|Hge].
  - rewrite (Z.shiftl_spec_low b k n) by exact Hlt. apply andb_false_r.
  - destruct (Z.eq_dec a 0) as [->|Hnz].
    + rewrite Z.bits_0. reflexivity.
    + rewrite (Z.bits_above_log2 a n); [reflexivity | lia |].
      apply Z.log2_lt_pow2; [lia|].
      apply Z.lt_le_trans with (2 ^ k); [lia|].
      apply Z.pow_le_mono_r; lia.
Qed.

Lemma BigEndian_Uint16_value (b0 b1 : byte) :
  BigEndian_Uint16 [b0; b1] = be_value [b0; b1].
Proof.
  unfold BigEndian_Uint16, be_value. simpl.
  pose proof (byte_to_Z_range b1).
  rewrite lor_shiftl_add by lia. lia.
Qed.

Lemma BigEndian_Uint32_value (b0 b1 b2 b3 : byte) :
  BigEndian_Uint32 [b0; b1; b2; b3] = be_value [b0; b1; b2; b3].
Proof.
  unfold BigEndian_Uint32, be_value. simpl.
  pose proof (byte_to_Z_range b0). pose proof (byte_to_Z_range b1).
  pose proof (byte_to_Z_range b2). pose proof (byte_to_Z_range b3).
  rewrite (lor_shiftl_add (byte_to_Z b3)) by lia.
  rewrite (lor_shiftl_add _ (byte_to_Z b1)) by lia.
  rewrite (lor_shiftl_add _ (byte_to_Z b0)) by lia.
  lia.
Qed.

Lemma be_value_bytes16 (n : Z) :
  0 <= n < 2 ^ 16 ->
  be_value [byte_of_Z (Z.shiftr n 8); byte_of_Z n] = n.
Proof.
  intros Hn. unfold be_value. simpl.
  rewrite !byte_to_of_Z, Z.shiftr_div_pow2 by lia.
  change (2 ^ 8) with 256. change (2 ^ 16) with 65536 in Hn.
  Z.div_mod_to_equations. lia.
Qed.

Lemma be_value_bytes32 (n : Z) :
  0 <= n < 2 ^ 32 ->
  be_value [byte_of_Z (Z.shiftr n 24); byte_of_Z (Z.shiftr n 16);
            byte_of_Z (Z.shiftr n 8); byte_of_Z n] = n.
Proof.
  intros Hn. unfold be_value. simpl.
  rewrite !byte_to_of_Z, !Z.shiftr_div_pow2 by lia.
  change (2 ^ 8) with 256. change (2 ^ 16) with 65536.
  change (2 ^ 24) with 16777216. change (2 ^ 32) with 4294967296 in Hn.
  Z.div_mod_to_equations. lia.
Qed.

(** ** The reference codec *)

Lemma reserved_tag_is_ext_id : int8_of_byte reserved_tag = internedStringExtID.
Proof. reflexivity. Qed.

(** C5. For a non-negative index (a Go [int]), [encodeInternedStringIndex]
    picks the narrowest width: up to 255 one payload byte after the
    [FixExt1] code, up to 65,535 two after [FixExt2], up to 4,294,967,295
    four after [FixExt4]; the payload is the index as a big-endian
    unsigned integer and follows the reserved type tag.  A larger index
    fails with the index-too-large error and writes nothing. *)
Theorem encodeInternedStringIndex_narrowest (idx : Z) (e : Encoder) :
  0 <= idx < 2 ^ 63 ->
  (idx <= 255 ->
   exists payload,
     List.length payload = 1%nat /\ be_value payload = idx /\
     encodeInternedStringIndex idx e =
       (Ok tt, mkEncoder (e_dict e)
                 (e_w e ++ msgpcode.FixExt1 :: reserved_tag :: payload))) /\
  (256 <= idx <= 65535 ->
   exists payload,
     List.length payload = 2%nat /\ be_value payload = idx /\
     encodeInternedStringIndex idx e =
       (Ok tt, mkEncoder (e_dict e)
                 (e_w e ++ msgpcode.FixExt2 :: reserved_tag :: payload))) /\
  (65536 <= idx <= 4294967295 ->
   exists payload,
     List.length payload = 4%nat /\ be_value payload = idx /\
     encodeInternedStringIndex idx e =
       (Ok tt, mkEncoder (e_dict e)
                 (e_w e ++ msgpcode.FixExt4 :: reserved_tag :: payload))) /\
  (4294967295 < idx ->
   encodeInternedStringIndex idx e = (Err (ErrIndexTooLarge idx), e)).
Proof.
  intros Hidx. unfold encodeInternedStringIndex, MaxUint8, MaxUint16, MaxUint32.
  repeat split.
  - intros H. exists [byte_of_Z (idx mod 2 ^ 8)].
    split; [reflexivity|]. split.
    + unfold be_value. simpl. rewrite byte_to_of_Z.
      change (2 ^ 8) with 256. rewrite Z.mod_mod by lia. rewrite Z.mod_small; lia.
    + destruct (Z.leb_spec idx 255); [|lia].
      unfold bind, writeCode, write1, write. simpl.
      rewrite <- app_assoc. reflexivity.
  - intros H. exists [byte_of_Z (Z.shiftr (idx mod 2 ^ 16) 8); byte_of_Z (idx mod 2 ^ 16)].
    split; [reflexivity|]. split.
    + rewrite Z.mod_small by (change (2 ^ 16) with 65536; lia).
      apply be_value_bytes16. change (2 ^ 16) with 65536; lia.
    + destruct (Z.leb_spec idx 255); [lia|].
      destruct (Z.leb_spec idx 65535); [|lia].
      unfold bind, writeCode, write2, write. simpl.
      rewrite <- app_assoc. reflexivity.
  - intros H.
    exists [byte_of_Z (Z.shiftr (idx mod 2 ^ 32) 24); byte_of_Z (Z.shiftr (idx mod 2 ^ 32) 16);
            byte_of_Z (Z.shiftr (idx mod 2 ^ 32) 8); byte_of_Z (idx mod 2 ^ 32)].
    split; [reflexivity|]. split.
    + rewrite Z.mod_small by (change (2 ^ 32) with 4294967296; lia).
      apply be_value_bytes32. change (2 ^ 32) with 4294967296; lia.
    + destruct (Z.leb_spec idx 255); [lia|].
      destruct (Z.leb_spec idx 65535); [lia|].
      rewrite (Z.mod_small idx (2 ^ 64)) by lia.
      destruct (Z.leb_spec idx 4294967295); [|lia].
      unfold bind, writeCode, write4, write. simpl.
      rewrite <- app_assoc. reflexivity.
  - intros H.
    destruct (Z.leb_spec idx 255); [lia|].
    destruct (Z.leb_spec idx 65535); [lia|].
    rewrite (Z.mod_small idx (2 ^ 64)) by lia.
    destruct (Z.leb_spec idx 4294967295); [lia|].
    reflexivity.
Qed.

Lemma encodeInternedStringIndex_narrowest_witness :
  0 <= 300 < 2 ^ 63 /\ 256 <= 300 <= 65535 /\
  exists payload,
    List.length payload = 2%nat /\ be_value payload = 300 /\
    encodeInternedStringIndex 300 NewEncoder =
      (Ok tt, mkEncoder (e_dict NewEncoder)
                (e_w NewEncoder ++ msgpcode.FixExt2 :: reserved_tag :: payload)).
Proof.
  split; [lia|]. split; [lia|].
  apply (encodeInternedStringIndex_narrowest 300 NewEncoder); lia.
Defined.

(** ** Reading from the byte source *)

Lemma ReadFull_app (payload rest dn : list byte) :
  ReadFull (List.length payload) (mkReader dn (payload ++ rest)) =
    (Ok payload, mkReader (rev payload ++ dn) rest).
Proof.
  unfold ReadFull. simpl.
  rewrite length_app.
  destruct (Nat.leb_spec (List.length payload) (List.length payload + List.length rest)) as [_|Hlt];
    [|lia].
  rewrite take_app_length, drop_app_length. reflexivity.
Qed.

Lemma ReadFull_short (n : nat) (r : Reader) :
  (List.length (r_rest r) < n)%nat ->
  exists e, ReadFull n r = (Err e, mkReader (rev (r_rest r) ++ r_done r) []).
Proof.
  intros H. unfold ReadFull.
  destruct (Nat.leb_spec n (List.length (r_rest r))); [lia|].
  eexists. reflexivity.
Qed.

Lemma readN_app (payload rest dn : list byte) (dict : list string) :
  readN (Z.of_nat (List.length payload)) (mkDecoder dict (mkReader dn (payload ++ rest))) =
    (Ok payload, mkDecoder dict (mkReader (rev payload ++ dn) rest)).
Proof.
  unfold readN, on_s. simpl. rewrite Nat2Z.id, ReadFull_app. reflexivity.
Qed.

Lemma readN_2 (b0 b1 : byte) (rest dn : list byte) (dict : list string) :
  readN 2 (mkDecoder dict (mkReader dn (b0 :: b1 :: rest))) =
    (Ok [b0; b1], mkDecoder dict (mkReader (b1 :: b0 :: dn) rest)).
Proof. reflexivity. Qed.

Lemma readN_4 (b0 b1 b2 b3 : byte) (rest dn : list byte) (dict : list string) :
  readN 4 (mkDecoder dict (mkReader dn (b0 :: b1 :: b2 :: b3 :: rest))) =
    (Ok [b0; b1; b2; b3], mkDecoder dict (mkReader (b3 :: b2 :: b1 :: b0 :: dn) rest)).
Proof. reflexivity. Qed.

Lemma readCode_cons (b : byte) (rest dn : list byte) (dict : list string) :
  readCode (mkDecoder dict (mkReader dn (b :: rest))) =
    (Ok b, mkDecoder dict (mkReader (b :: dn) rest)).
Proof. reflexivity. Qed.

Lemma decodeInternedStringIndex_payload (payload rest dn : list byte) (dict : list string) :
  (List.length payload = 1 \/ List.length payload = 2 \/ List.length payload = 4)%nat ->
  decodeInternedStringIndex (Z.of_nat (List.length payload))
      (mkDecoder dict (mkReader dn (payload ++ rest))) =
    (Ok (be_value payload), mkDecoder dict (mkReader (rev payload ++ dn) rest)).
Proof.
  intros Hlen.
  destruct Hlen as [Hlen|[Hlen|Hlen]].
  + destruct payload as [|b0 [|? ?]]; try discriminate Hlen.
    reflexivity.
  + destruct payload as [|b0 [|b1 [|? ?]]]; try discriminate Hlen.
    change (decodeInternedStringIndex 2 (mkDecoder dict (mkReader dn (b0 :: b1 :: rest))) =
              (Ok (be_value [b0; b1]), mkDecoder dict (mkReader (b1 :: b0 :: dn) rest))).
    unfold decodeInternedStringIndex, bind.
    change (2 =? 1) with false. change (2 =? 2) with true. cbv beta iota.
    rewrite readN_2. unfold ret. rewrite BigEndian_Uint16_value. reflexivity.
  + destruct payload as [|b0 [|b1 [|b2 [|b3 [|? ?]]]]]; try discriminate Hlen.
    change (decodeInternedStringIndex 4
              (mkDecoder dict (mkReader dn (b0 :: b1 :: b2 :: b3 :: rest))) =
              (Ok (be_value [b0; b1; b2; b3]),
               mkDecoder dict (mkReader (b3 :: b2 :: b1 :: b0 :: dn) rest))).
    unfold decodeInternedStringIndex, bind.
    change (4 =? 1) with false. change (4 =? 2) with false.
    change (4 =? 4) with true. cbv beta iota.
    rewrite readN_4. unfold ret. rewrite BigEndian_Uint32_value. reflexivity.
Qed.

(** C6. [decodeInternedStringIndex] called with length 1, 2 or 4 on an
    input that holds that many bytes consumes exactly those bytes and
    returns them read as a big-endian unsigned integer; called with any
    other length it fails with the unsupported-length error and leaves
    the decoder, input position included, as it was. *)
Theorem decodeInternedStringIndex_widths :
  (forall (payload rest dn : list byte) (dict : list string),
      (List.length payload = 1 \/ List.length payload = 2 \/ List.length payload = 4)%nat ->
      decodeInternedStringIndex (Z.of_nat (List.length payload))
          (mkDecoder dict (mkReader dn (payload ++ rest))) =
        (Ok (be_value payload), mkDecoder dict (mkReader (rev payload ++ dn) rest))) /\
  (forall (length : Z) (d : Decoder),
      length <> 1 -> length <> 2 -> length <> 4 ->
      decodeInternedStringIndex length d = (Err (ErrIndexLength length), d)).
Proof.
  split.
  - apply decodeInternedStringIndex_payload.
  - intros length d H1 H2 H4. unfold decodeInternedStringIndex.
    destruct (Z.eqb_spec length 1); [contradiction|].
    destruct (Z.eqb_spec length 2); [contradiction|].
    destruct (Z.eqb_spec length 4); [contradiction|].
    reflexivity.
Qed.

Lemma decodeInternedStringIndex_widths_witness :
  decodeInternedStringIndex 2 (NewDecoder [x01; x2c; xc0]) =
    (Ok 300, mkDecoder [] (mkReader [x2c; x01] [xc0])) /\
  decodeInternedStringIndex 3 (NewDecoder [x01; x2c; xc0]) =
    (Err (ErrIndexLength 3), NewDecoder [x01; x2c; xc0]).
Proof.
  split.
  - apply (proj1 decodeInternedStringIndex_widths [x01; x2c] [xc0] [] []).
    right. left. reflexivity.
  - apply (proj2 decodeInternedStringIndex_widths 3); lia.
Defined.

(** ** Decoding a reference *)

Lemma be_value_nonneg (bs : list byte) : 0 <= be_value bs.
Proof.
  unfold be_value.
  assert (H : forall acc, 0 <= acc ->
            0 <= fold_left (fun acc b => acc * 256 + byte_to_Z b) bs acc).
  { induction bs as [|b bs IH]; intros acc Hacc; simpl; [exact Hacc|].
    apply IH. pose proof (byte_to_Z_range b). lia. }
  apply H. lia.
Qed.

Lemma extHeader_fixed (c tag : byte) (w : Z) (rest dn : list byte) (dict : list string) :
  (c, w) = (msgpcode.FixExt1, 1) \/ (c, w) = (msgpcode.FixExt2, 2)
    \/ (c, w) = (msgpcode.FixExt4, 4) ->
  extHeader c (mkDecoder dict (mkReader dn (tag :: rest))) =
    (Ok (int8_of_byte tag, w), mkDecoder dict (mkReader (tag :: dn) rest)).
Proof.
  intros [H|[H|H]]; injection H as -> ->; reflexivity.
Qed.

Lemma decodeInternedString_reference (c : byte) (intern : bool)
    (payload rest dn : list byte) (dict : list string) :
  reference_envelope c payload ->
  decodeInternedString c intern
      (mkDecoder dict (mkReader dn (reserved_tag :: payload ++ rest))) =
    internedStringAtIndex (be_value payload)
      (mkDecoder dict (mkReader (rev payload ++ reserved_tag :: dn) rest)).
Proof.
  intros Henv.
  assert (Hlen : (List.length payload = 1 \/ List.length payload = 2
                  \/ List.length payload = 4)%nat)
    by (destruct Henv as [[_ H]|[[_ H]|[_ H]]]; auto).
  pose proof (decodeInternedStringIndex_payload payload rest (reserved_tag :: dn) dict Hlen)
    as Hidx.
  destruct Henv as [[-> H]|[[-> H]|[-> H]]]; rewrite H in Hidx;
    try change (Z.of_nat 1) with 1 in Hidx;
    try change (Z.of_nat 2) with 2 in Hidx;
    try change (Z.of_nat 4) with 4 in Hidx;
    unfold decodeInternedString; decide_guards;
    unfold bind at 1;
    [ rewrite (extHeader_fixed _ _ 1) by (left; reflexivity)
    | rewrite (extHeader_fixed _ _ 2) by (right; left; reflexivity)
    | rewrite (extHeader_fixed _ _ 4) by (right; right; reflexivity) ];
    cbv beta iota; decide_guards;
    unfold bind; rewrite Hidx; reflexivity.
Qed.

(** C3. Decoding a reference envelope (a fixed-extension code of width
    1, 2 or 4, the reserved type tag, and the payload): when the index in
    the payload is at least the size of the decode dictionary the decode
    fails with the index-does-not-exist error, otherwise it returns the
    string stored at that index; either way the payload is consumed and
    the dictionary is left as it was.  The decoder registered for the
    reserved extension type, [decodeInternedStringExt], entered after the
    tag, does the same. *)
Theorem decodeInternedString_reference_lookup (c : byte) (intern : bool)
    (payload rest dn : list byte) (dict : list string) :
  reference_envelope c payload ->
  let d := mkDecoder dict (mkReader dn (reserved_tag :: payload ++ rest)) in
  let d' := mkDecoder dict (mkReader (rev payload ++ reserved_tag :: dn) rest) in
  let idx := be_value payload in
  (Z.of_nat (List.length dict) <= idx ->
   decodeInternedString c intern d = (Err (ErrIndexMissing idx), d')) /\
  (idx < Z.of_nat (List.length dict) ->
   exists s, dict !! Z.to_nat idx = Some s /\
             decodeInternedString c intern d = (Ok s, d')) /\
  d_dict (snd (decodeInternedString c intern d)) = d_dict d /\
  decodeInternedStringExt (Z.of_nat (List.length payload))
      (mkDecoder dict (mkReader (reserved_tag :: dn) (payload ++ rest))) =
    decodeInternedString c intern d.
Proof.
  intros Henv d d' idx. subst d d' idx.
  assert (Hext : decodeInternedStringExt (Z.of_nat (List.length payload))
                   (mkDecoder dict (mkReader (reserved_tag :: dn) (payload ++ rest))) =
                 internedStringAtIndex (be_value payload)
                   (mkDecoder dict (mkReader (rev payload ++ reserved_tag :: dn) rest))).
  { unfold decodeInternedStringExt, bind.
    rewrite decodeInternedStringIndex_payload; [reflexivity|].
    destruct Henv as [[_ H]|[[_ H]|[_ H]]]; auto. }
  rewrite Hext.
  rewrite (decodeInternedString_reference c intern payload rest dn dict Henv).
  pose proof (be_value_nonneg payload) as Hnn.
  unfold internedStringAtIndex. cbn [d_dict].
  destruct (Z.leb_spec (Z.of_nat (List.length dict)) (be_value payload)) as [Hge|Hlt].
  - split; [reflexivity|]. split; [lia|split; reflexivity].
  - split; [lia|].
    destruct (Z.ltb_spec (be_value payload) 0) as [Hneg|_]; [lia|].
    destruct (dict !! Z.to_nat (be_value payload)) as [s|] eqn:E.
    + split; [|split; reflexivity]. intros _. exists s. split; reflexivity.
    + apply lookup_ge_None in E. lia.
Qed.

Lemma decodeInternedString_reference_lookup_witness :
  reference_envelope xd4 [x01] /\
  exists s,
    ["abc"; "defg"]%string !! Z.to_nat (be_value [x01]) = Some s /\
    decodeInternedString xd4 true
        (mkDecoder ["abc"; "defg"]%string
           (mkReader [xd4] (reserved_tag :: [x01] ++ [xc0]))) =
      (Ok s, mkDecoder ["abc"; "defg"]%string
               (mkReader (rev [x01] ++ reserved_tag :: [xd4]) [xc0])).
Proof.
  assert (Henv : reference_envelope xd4 [x01]) by (left; split; reflexivity).
  split; [exact Henv|].
  apply (decodeInternedString_reference_lookup xd4 true [x01] [xc0] [xd4]
           ["abc"; "defg"]%string Henv).
  vm_compute. reflexivity.
Defined.

(** ** Extension envelopes of another type *)

(** C8, as amended: for a fixed-extension envelope of width 1, 2 or 4
    (codes [FixExt1], [FixExt2], [FixExt4]) whose type tag is not the
    reserved identifier, [decodeInternedString] fails with the
    extension-type error that reports the tag found; the tag byte is
    consumed and the dictionary is left as it was. *)
Theorem decodeInternedString_ext_type_mismatch (c tag : byte) (intern : bool)
    (rest dn : list byte) (dict : list string) :
  c = msgpcode.FixExt1 \/ c = msgpcode.FixExt2 \/ c = msgpcode.FixExt4 ->
  int8_of_byte tag <> internedStringExtID ->
  decodeInternedString c intern (mkDecoder dict (mkReader dn (tag :: rest))) =
    (Err (ErrExtType (int8_of_byte tag)), mkDecoder dict (mkReader (tag :: dn) rest)).
Proof.
  intros Hc Htag.
  destruct Hc as [-> | [-> | ->]];
    unfold decodeInternedString; decide_guards;
    unfold bind at 1;
    [ rewrite (extHeader_fixed _ _ 1) by (left; reflexivity)
    | rewrite (extHeader_fixed _ _ 2) by (right; left; reflexivity)
    | rewrite (extHeader_fixed _ _ 4) by (right; right; reflexivity) ];
    cbv beta iota;
    (destruct (Z.eqb_spec (int8_of_byte tag) internedStringExtID) as [Heq|_];
     [contradiction|reflexivity]).
Qed.

Lemma decodeInternedString_ext_type_mismatch_witness :
  decodeInternedString xd5 true (mkDecoder [] (mkReader [xd5] [x05; x00; x01])) =
    (Err (ErrExtType (int8_of_byte x05)), mkDecoder [] (mkReader [x05; xd5] [x00; x01])).
Proof.
  apply (decodeInternedString_ext_type_mismatch xd5 x05 true [x00; x01] [xd5] []).
  - right. left. reflexivity.
  - vm_compute. discriminate.
Defined.

(** C8, as stated, fails on the wider envelopes: an 8-byte fixed
    extension ([FixExt8]) with the application type tag 5 is answered
    with the unexpected-code error, not with an extension-type error, and
    nothing of the envelope is consumed. *)
Lemma decodeInternedString_ext_type_mismatch_counterexample :
  let d := mkDecoder [] (mkReader [msgpcode.FixExt8]
                           [x05; x00; x01; x02; x03; x04; x05; x06; x07]) in
  int8_of_byte x05 <> internedStringExtID /\
  decodeInternedString msgpcode.FixExt8 true d = (Err errUnexpectedCode, d) /\
  forall typeID, fst (decodeInternedString msgpcode.FixExt8 true d) <> Err (ErrExtType typeID).
Proof.
  cbv zeta. split; [vm_compute; discriminate|].
  split; [reflexivity|]. intros typeID. vm_compute. discriminate.
Qed.

(** ** Failing while reading a literal *)

Lemma on_s_dict {A} (m : M Reader A) (d : Decoder) :
  d_dict (snd (on_s m d)) = d_dict d.
Proof. unfold on_s. destruct (m (d_s d)). reflexivity. Qed.

Lemma stringWithLen_dict (n : Z) (d : Decoder) :
  d_dict (snd (stringWithLen n d)) = d_dict d.
Proof.
  unfold stringWithLen. destruct (n <=? 0); [reflexivity|].
  unfold bind, readN.
  pose proof (on_s_dict (ReadFull (Z.to_nat n)) d) as H.
  destruct (on_s (ReadFull (Z.to_nat n)) d) as [[b|e] d1]; exact H.
Qed.

Lemma stringWithLen_short (n : Z) (d : Decoder) :
  0 < n -> (List.length (r_rest (d_s d)) < Z.to_nat n)%nat ->
  exists e, stringWithLen n d =
              (Err e, mkDecoder (d_dict d)
                        (mkReader (rev (r_rest (d_s d)) ++ r_done (d_s d)) [])).
Proof.
  intros Hn Hshort. unfold stringWithLen.
  destruct (Z.leb_spec n 0); [lia|].
  unfold bind, readN, on_s.
  destruct (ReadFull_short (Z.to_nat n) (d_s d) Hshort) as [e ->].
  exists e. reflexivity.
Qed.

(** C9. When reading the payload of a literal fails,
    [decodeInternedStringWithLen] returns that error and the decode
    dictionary is the one it started with; in particular this is what
    happens when the input holds fewer than [n] bytes.  The dictionary
    changes only in a call that returns the literal it read, which is
    then the entry appended. *)
Theorem decodeInternedStringWithLen_read_error (n : Z) (intern : bool) (d : Decoder) :
  (forall e d1, stringWithLen n d = (Err e, d1) ->
     decodeInternedStringWithLen n intern d = (Err e, d1) /\ d_dict d1 = d_dict d) /\
  (0 < n -> (List.length (r_rest (d_s d)) < Z.to_nat n)%nat ->
     exists e d1, decodeInternedStringWithLen n intern d = (Err e, d1) /\
                  d_dict d1 = d_dict d) /\
  (forall r d', decodeInternedStringWithLen n intern d = (r, d') ->
     d_dict d' <> d_dict d ->
     exists s, r = Ok s /\ fst (stringWithLen n d) = Ok s /\ d_dict d' = d_dict d ++ [s]).
Proof.
  assert (H1 : forall e d1, stringWithLen n d = (Err e, d1) ->
     decodeInternedStringWithLen n intern d = (Err e, d1) /\ d_dict d1 = d_dict d).
  { intros e d1 Hs. split.
    - unfold decodeInternedStringWithLen.
      destruct (Z.leb_spec n 0) as [Hle|Hgt].
      + unfold stringWithLen in Hs. destruct (Z.leb_spec n 0); [|lia]. discriminate Hs.
      + unfold bind at 1. rewrite Hs. reflexivity.
    - pose proof (stringWithLen_dict n d) as Hd. rewrite Hs in Hd. exact Hd. }
  split; [exact H1|]. split.
  - intros Hn Hshort.
    destruct (stringWithLen_short n d Hn Hshort) as [e He].
    destruct (H1 _ _ He) as [Hr Hd]. eauto.
  - intros r d' Hrun Hneq.
    unfold decodeInternedStringWithLen in Hrun.
    destruct (Z.leb_spec n 0) as [Hle|Hgt].
    + injection Hrun as <- <-. contradiction.
    + unfold bind at 1 in Hrun.
      pose proof (stringWithLen_dict n d) as Hd.
      destruct (stringWithLen n d) as [[s|e] d1] eqn:Hs; cbn [snd] in Hd.
      * unfold bind, set_d_dict, ret in Hrun.
        destruct (intern && (minInternedStringLen <=? len s)
                  && (Z.of_nat (List.length (d_dict d1)) <? maxDictLen));
          injection Hrun as <- <-; cbn [d_dict] in *.
        -- exists s. rewrite Hd. auto.
        -- contradiction.
      * injection Hrun as <- <-. contradiction.
Qed.

Lemma decodeInternedStringWithLen_read_error_witness :
  let d := mkDecoder ["abc"%string] (mkReader [xa5] [x68; x65]) in
  exists e d1, decodeInternedStringWithLen 5 true d = (Err e, d1) /\
               d_dict d1 = d_dict d.
Proof.
  cbv zeta.
  apply (decodeInternedStringWithLen_read_error 5 true
           (mkDecoder ["abc"%string] (mkReader [xa5] [x68; x65]))).
  - lia.
  - vm_compute. lia.
Defined.

(** ** Literals on the wire *)

Lemma length_bytes_of_string (s : string) :
  List.length (bytes_of_string s) = String.length s.
Proof.
  unfold bytes_of_string, list_byte_of_string.
  induction s as [|a s IH]; simpl; [reflexivity|]. now rewrite IH.
Qed.

Lemma string_of_bytes_of_string (s : string) :
  string_of_bytes (bytes_of_string s) = s.
Proof. apply string_of_list_byte_of_string. Qed.

Lemma len_nonneg (s : string) : 0 <= len s.
Proof. unfold len. lia. Qed.

Lemma len_0 (s : string) : len s <= 0 -> s = EmptyString.
Proof. unfold len. destruct s; simpl; [reflexivity|lia]. Qed.

Lemma encodeStringLen_write (l : Z) (e : Encoder) :
  encodeStringLen l e = write (string_header l) e.
Proof.
  unfold string_header, encodeStringLen.
  destruct (l <? 32); [reflexivity|].
  destruct (l <? 256); [reflexivity|].
  destruct (l <=? MaxUint16); reflexivity.
Qed.

Lemma literal_bytes_eq (s : string) :
  literal_bytes s = string_header (len s) ++ bytes_of_string s.
Proof.
  unfold literal_bytes, encodeNormalString, bind.
  rewrite encodeStringLen_write. reflexivity.
Qed.

Lemma encodeNormalString_write (s : string) (e : Encoder) :
  encodeNormalString s e = write (literal_bytes s) e.
Proof.
  rewrite literal_bytes_eq.
  unfold encodeNormalString, bind. rewrite encodeStringLen_write.
  unfold write, writeString, write. cbn [e_dict e_w]. rewrite app_assoc. reflexivity.
Qed.

Lemma encodeInternedStringIndex_write (idx : Z) (e : Encoder) :
  0 <= idx <= MaxUint32 ->
  encodeInternedStringIndex idx e = write (reference_bytes idx) e.
Proof.
  unfold MaxUint32. intros Hidx.
  unfold reference_bytes, encodeInternedStringIndex.
  destruct (idx <=? MaxUint8).
  { unfold bind, writeCode, write1, write. cbn. rewrite <- app_assoc. reflexivity. }
  destruct (idx <=? MaxUint16).
  { unfold bind, writeCode, write2, write. cbn. rewrite <- app_assoc. reflexivity. }
  rewrite (Z.mod_small idx (2 ^ 64)) by lia.
  unfold MaxUint32. destruct (Z.leb_spec idx 4294967295); [|lia].
  unfold bind, writeCode, write4, write. cbn. rewrite <- app_assoc. reflexivity.
Qed.

Lemma decodeInternedStringWithLen_payload (s : string) (intern : bool)
    (dict : list string) (dn rest : list byte) :
  decodeInternedStringWithLen (len s) intern
      (mkDecoder dict (mkReader dn (bytes_of_string s ++ rest))) =
    (Ok s, mkDecoder (learn intern s dict)
             (mkReader (rev (bytes_of_string s) ++ dn) rest)).
Proof.
  unfold decodeInternedStringWithLen.
  destruct (Z.leb_spec (len s) 0) as [Hle|Hgt].
  - rewrite (len_0 s Hle). destruct intern; reflexivity.
  - unfold stringWithLen. destruct (Z.leb_spec (len s) 0); [lia|].
    unfold bind at 1 2. unfold len at 1.
    rewrite <- length_bytes_of_string, readN_app.
    unfold ret at 1. rewrite string_of_bytes_of_string.
    unfold bind, learn, set_d_dict, ret. cbn [d_dict d_s].
    destruct (intern && (minInternedStringLen <=? len s)
              && (Z.of_nat (List.length dict) <? maxDictLen)); reflexivity.
Qed.

Lemma fixed_code_value (l : Z) :
  0 <= l < 32 -> Z.lor (byte_to_Z msgpcode.FixedStrLow) l = 160 + l.
Proof.
  intros Hl. change (byte_to_Z msgpcode.FixedStrLow) with (Z.shiftl 5 5).
  rewrite Z.lor_comm, lor_shiftl_add by (change (2 ^ 5) with 32; lia).
  change (2 ^ 5) with 32. lia.
Qed.

Lemma string_header_cases (l : Z) :
  0 <= l < 2 ^ 32 ->
  (l < 32 /\ string_header l = [byte_of_Z (160 + l)]) \/
  (32 <= l < 256 /\ string_header l = [msgpcode.Str8; byte_of_Z l]) \/
  (256 <= l <= 65535 /\
   string_header l = [msgpcode.Str16; byte_of_Z (Z.shiftr l 8); byte_of_Z l]) \/
  (65536 <= l /\
   string_header l = [msgpcode.Str32; byte_of_Z (Z.shiftr l 24);
                      byte_of_Z (Z.shiftr l 16); byte_of_Z (Z.shiftr l 8); byte_of_Z l]).
Proof.
  intros Hl. unfold string_header, encodeStringLen, MaxUint16.
  destruct (Z.ltb_spec l 32).
  { left. split; [lia|]. rewrite fixed_code_value by lia. reflexivity. }
  destruct (Z.ltb_spec l 256).
  { right. left. split; [lia|]. reflexivity. }
  destruct (Z.leb_spec l 65535).
  { right. right. left. split; [lia|]. reflexivity. }
  right. right. right. split; [lia|].
  rewrite Z.mod_small by lia. reflexivity.
Qed.

Lemma fixed_code_decode (l : Z) :
  0 <= l < 32 ->
  msgpcode.IsFixedString (byte_of_Z (160 + l)) = true /\
  Z.land (byte_to_Z (byte_of_Z (160 + l))) (byte_to_Z msgpcode.FixedStrMask) = l.
Proof.
  intros Hl. unfold msgpcode.IsFixedString.
  rewrite byte_to_of_Z, Z.mod_small by lia.
  change (byte_to_Z msgpcode.FixedStrLow) with 160.
  change (byte_to_Z msgpcode.FixedStrHigh) with 191.
  change (byte_to_Z msgpcode.FixedStrMask) with (Z.ones 5).
  split.
  - apply andb_true_intro. split; apply Z.leb_le; lia.
  - rewrite Z.land_ones by lia. change (2 ^ 5) with 32.
    Z.div_mod_to_equations. lia.
Qed.

(** Decoding the wire form of a literal, its code byte [c] already read,
    returns the string and records it as [learn] says. *)
Lemma decodeInternedString_literal (s : string) (intern : bool) (c : byte)
    (tl : list byte) (dict : list string) (dn rest : list byte) :
  len s < 2 ^ 32 ->
  literal_bytes s = c :: tl ->
  decodeInternedString c intern (mkDecoder dict (mkReader (c :: dn) (tl ++ rest))) =
    (Ok s, mkDecoder (learn intern s dict) (mkReader (rev tl ++ c :: dn) rest)).
Proof.
  intros Hlen Hlit. rewrite literal_bytes_eq in Hlit.
  pose proof (len_nonneg s) as Hnn.
  pose proof (decodeInternedStringWithLen_payload s intern dict) as Hpay.
  destruct (string_header_cases (len s) ltac:(lia))
    as [[Hl Hh]|[[Hl Hh]|[[Hl Hh]|[Hl Hh]]]];
    rewrite Hh in Hlit; injection Hlit as <- <-.
  - destruct (fixed_code_decode (len s) ltac:(lia)) as [Hfix Hmask].
    unfold decodeInternedString. rewrite Hfix, Hmask. apply Hpay.
  - unfold decodeInternedString. decide_guards.
    unfold bind at 1, uint8, bind at 1.
    cbn [app]. rewrite readCode_cons. unfold ret at 1.
    rewrite byte_to_of_Z, Z.mod_small by lia.
    rewrite Hpay. cbn [rev app]. rewrite <- !app_assoc. reflexivity.
  - unfold decodeInternedString. decide_guards.
    unfold bind at 1, uint16, bind at 1.
    cbn [app]. rewrite readN_2. unfold ret at 1.
    rewrite BigEndian_Uint16_value, be_value_bytes16
      by (change (2 ^ 16) with 65536; lia).
    rewrite Hpay. cbn [rev app]. rewrite <- !app_assoc. reflexivity.
  - unfold decodeInternedString. decide_guards.
    unfold bind at 1, uint32, bind at 1.
    cbn [app]. rewrite readN_4. unfold ret at 1.
    rewrite BigEndian_Uint32_value, be_value_bytes32 by lia.
    rewrite Hpay. cbn [rev app]. rewrite <- !app_assoc. reflexivity.
Qed.

(** ** The effect of a decode on the dictionary *)

Lemma keeps_dict_ret {A} (a : A) : keeps_dict (ret a).
Proof. intros d. reflexivity. Qed.

Lemma keeps_dict_fail {A} (e : error) : keeps_dict (@fail Decoder A e).
Proof. intros d. reflexivity. Qed.

Lemma keeps_dict_on_s {A} (m : M Reader A) : keeps_dict (on_s m).
Proof. intros d. apply on_s_dict. Qed.

Lemma keeps_dict_bind {A B} (m : M Decoder A) (k : A -> M Decoder B) :
  keeps_dict m -> (forall a, keeps_dict (k a)) -> keeps_dict (bind m k).
Proof.
  intros Hm Hk d. unfold bind. specialize (Hm d).
  destruct (m d) as [[a|e] d1]; cbn [snd] in *.
  - rewrite Hk. exact Hm.
  - exact Hm.
Qed.

Lemma keeps_dict_effect (intern : bool) (m : M Decoder string) :
  keeps_dict m -> dict_effect intern m.
Proof. intros H d. left. apply H. Qed.

Lemma dict_effect_bind {A} (intern : bool) (m : M Decoder A) (k : A -> M Decoder string) :
  keeps_dict m -> (forall a, dict_effect intern (k a)) -> dict_effect intern (bind m k).
Proof.
  intros Hm Hk d. unfold bind. specialize (Hm d).
  destruct (m d) as [[a|e] d1]; cbn [snd] in *.
  - rewrite <- Hm. apply Hk.
  - left. exact Hm.
Qed.

Lemma keeps_dict_readN (n : Z) : keeps_dict (readN n).
Proof. apply keeps_dict_on_s. Qed.

Lemma keeps_dict_readCode : keeps_dict readCode.
Proof. apply keeps_dict_on_s. Qed.

Lemma keeps_dict_uint8 : keeps_dict uint8.
Proof.
  apply keeps_dict_bind; [apply keeps_dict_readCode | intros; apply keeps_dict_ret].
Qed.

Lemma keeps_dict_uint16 : keeps_dict uint16.
Proof.
  apply keeps_dict_bind; [apply keeps_dict_readN | intros; apply keeps_dict_ret].
Qed.

Lemma keeps_dict_uint32 : keeps_dict uint32.
Proof.
  apply keeps_dict_bind; [apply keeps_dict_readN | intros; apply keeps_dict_ret].
Qed.

Lemma keeps_dict_stringWithLen (n : Z) : keeps_dict (stringWithLen n).
Proof. intros d. apply stringWithLen_dict. Qed.

Lemma keeps_dict_parseExtLen (c : byte) : keeps_dict (parseExtLen c).
Proof.
  unfold parseExtLen.
  repeat match goal with
         | |- keeps_dict (if ?b then _ else _) => destruct b
         end;
    auto using keeps_dict_ret, keeps_dict_fail, keeps_dict_uint8,
               keeps_dict_uint16, keeps_dict_uint32.
Qed.

Lemma keeps_dict_extHeader (c : byte) : keeps_dict (extHeader c).
Proof.
  apply keeps_dict_bind; [apply keeps_dict_parseExtLen|]. intros extLen.
  apply keeps_dict_bind; [apply keeps_dict_readCode|]. intros extID.
  apply keeps_dict_ret.
Qed.

Lemma keeps_dict_decodeInternedStringIndex (length : Z) :
  keeps_dict (decodeInternedStringIndex length).
Proof.
  unfold decodeInternedStringIndex.
  repeat match goal with
         | |- keeps_dict (if ?b then _ else _) => destruct b
         end.
  - apply keeps_dict_bind; [apply keeps_dict_on_s | intros; apply keeps_dict_ret].
  - apply keeps_dict_bind; [apply keeps_dict_readN | intros; apply keeps_dict_ret].
  - apply keeps_dict_bind; [apply keeps_dict_readN | intros; apply keeps_dict_ret].
  - apply keeps_dict_fail.
Qed.

Lemma internedStringAtIndex_state (idx : Z) (d : Decoder) :
  snd (internedStringAtIndex idx d) = d.
Proof.
  unfold internedStringAtIndex.
  destruct (Z.of_nat (List.length (d_dict d)) <=? idx); [reflexivity|].
  destruct (if idx <? 0 then None else d_dict d !! Z.to_nat idx); reflexivity.
Qed.

Lemma keeps_dict_internedStringAtIndex (idx : Z) : keeps_dict (internedStringAtIndex idx).
Proof. intros d. now rewrite internedStringAtIndex_state. Qed.

Lemma dict_effect_decodeInternedStringWithLen (n : Z) (intern : bool) :
  dict_effect intern (decodeInternedStringWithLen n intern).
Proof.
  unfold decodeInternedStringWithLen.
  destruct (n <=? 0); [apply keeps_dict_effect, keeps_dict_ret|].
  apply dict_effect_bind; [apply keeps_dict_stringWithLen|]. intros s d.
  unfold bind, set_d_dict, ret.
  destruct intern; cbn [andb]; [|left; reflexivity].
  destruct (Z.leb_spec minInternedStringLen (len s)); cbn [andb]; [|left; reflexivity].
  destruct (Z.ltb_spec (Z.of_nat (List.length (d_dict d))) maxDictLen); [|left; reflexivity].
  right. exists s. cbn. auto.
Qed.

Lemma dict_effect_decodeInternedString (c : byte) (intern : bool) :
  dict_effect intern (decodeInternedString c intern).
Proof.
  unfold decodeInternedString.
  destruct (msgpcode.IsFixedString c); [apply dict_effect_decodeInternedStringWithLen|].
  destruct (Byte.eqb c msgpcode.Nil); [apply keeps_dict_effect, keeps_dict_ret|].
  destruct (Byte.eqb c msgpcode.FixExt1 || Byte.eqb c msgpcode.FixExt2
            || Byte.eqb c msgpcode.FixExt4).
  { apply keeps_dict_effect.
    apply keeps_dict_bind; [apply keeps_dict_extHeader|]. intros [typeID length].
    destruct (negb (typeID =? internedStringExtID)); [apply keeps_dict_fail|].
    apply keeps_dict_bind; [apply keeps_dict_decodeInternedStringIndex|].
    intros idx. apply keeps_dict_internedStringAtIndex. }
  destruct (Byte.eqb c msgpcode.Str8 || Byte.eqb c msgpcode.Bin8).
  { apply dict_effect_bind; [apply keeps_dict_uint8|].
    intros n. apply dict_effect_decodeInternedStringWithLen. }
  destruct (Byte.eqb c msgpcode.Str16 || Byte.eqb c msgpcode.Bin16).
  { apply dict_effect_bind; [apply keeps_dict_uint16|].
    intros n. apply dict_effect_decodeInternedStringWithLen. }
  destruct (Byte.eqb c msgpcode.Str32 || Byte.eqb c msgpcode.Bin32).
  { apply dict_effect_bind; [apply keeps_dict_uint32|].
    intros n. apply dict_effect_decodeInternedStringWithLen. }
  apply keeps_dict_effect, keeps_dict_fail.
Qed.

(** ** The string-only entry point on a literal *)

Lemma literal_bytes_cons (s : string) :
  len s < 2 ^ 32 -> exists c tl, literal_bytes s = c :: tl.
Proof.
  intros Hlen. rewrite literal_bytes_eq. pose proof (len_nonneg s).
  destruct (string_header_cases (len s) ltac:(lia))
    as [[_ ->]|[[_ ->]|[[_ ->]|[_ ->]]]]; cbn [app]; eauto.
Qed.

Lemma decodeInternedStringValue_literal (s : string) (dict : list string)
    (dn rest : list byte) :
  len s < 2 ^ 32 ->
  decodeInternedStringValue (mkDecoder dict (mkReader dn (literal_bytes s ++ rest))) =
    (Ok s, mkDecoder (learn true s dict) (mkReader (rev (literal_bytes s) ++ dn) rest)).
Proof.
  intros Hlen. destruct (literal_bytes_cons s Hlen) as (c & tl & Hlit).
  rewrite Hlit. cbn [app rev]. rewrite <- app_assoc. cbn [app].
  unfold decodeInternedStringValue, bind. rewrite readCode_cons.
  rewrite (decodeInternedString_literal s true c tl dict dn rest Hlen Hlit).
  reflexivity.
Qed.

(** ** Short strings *)

Lemma encodeInternedString_short (s : string) (intern : bool) (e : Encoder) :
  len s < minInternedStringLen ->
  encodeInternedString s intern e =
    (Ok tt, mkEncoder (e_dict e) (e_w e ++ literal_bytes s)).
Proof.
  intros Hs. unfold encodeInternedString.
  destruct (Z.leb_spec minInternedStringLen (len s)); [lia|].
  apply encodeNormalString_write.
Qed.

(** C7. A string shorter than three bytes is always written as a plain
    literal (a fixed-string code followed by its bytes), whatever the
    intern flag and however often it is offered, and the encode
    dictionary is left as it was; decoding that literal returns the
    string and leaves the decode dictionary as it was, as does every
    decode that returns such a string. *)
Theorem short_string_never_interned (s : string) :
  len s < minInternedStringLen ->
  (forall intern e k,
     let e' := Nat.iter k (fun e0 => snd (encodeInternedString s intern e0)) e in
     fst (encodeInternedString s intern e') = Ok tt /\
     e_dict e' = e_dict e /\
     e_w e' = e_w e ++ concat (repeat (literal_bytes s) k)) /\
  (exists c, msgpcode.IsFixedString c = true /\
             literal_bytes s = c :: bytes_of_string s) /\
  (forall intern c tl dict dn rest,
     literal_bytes s = c :: tl ->
     decodeInternedString c intern (mkDecoder dict (mkReader (c :: dn) (tl ++ rest))) =
       (Ok s, mkDecoder dict (mkReader (rev tl ++ c :: dn) rest))) /\
  (forall c intern d d',
     decodeInternedString c intern d = (Ok s, d') -> d_dict d' = d_dict d).
Proof.
  intros Hs. pose proof (len_nonneg s) as Hnn.
  unfold minInternedStringLen in Hs.
  split; [|split; [|split]].
  - intros intern e k. cbv zeta.
    split; [now rewrite encodeInternedString_short|].
    induction k as [|k [IHd IHw]]; cbn [repeat concat].
    + split; [reflexivity|]. cbn [Nat.iter nat_rect]. now rewrite app_nil_r.
    + rewrite Nat.iter_succ.
      rewrite encodeInternedString_short by exact Hs. cbn [snd e_dict e_w].
      split; [exact IHd|]. rewrite IHw, <- app_assoc. f_equal.
      clear. induction k as [|k IH]; cbn [repeat concat].
      * now rewrite app_nil_r.
      * rewrite <- app_assoc. now rewrite IH.
  - exists (byte_of_Z (160 + len s)). split.
    + apply fixed_code_decode. lia.
    + rewrite literal_bytes_eq.
      destruct (string_header_cases (len s) ltac:(lia))
        as [[_ ->]|[[? _]|[[? _]|[? _]]]]; [reflexivity|lia..].
  - intros intern c tl dict dn rest Hlit.
    rewrite (decodeInternedString_literal s intern c tl dict dn rest ltac:(lia) Hlit).
    unfold learn, minInternedStringLen.
    destruct (Z.leb_spec 3 (len s)); [lia|]. now rewrite andb_false_r.
  - intros c intern d d' Hrun.
    destruct (dict_effect_decodeInternedString c intern d) as [H|(s' & Hr & _ & _ & Hlen & _)];
      rewrite Hrun in *; cbn [fst snd] in *.
    + exact H.
    + injection Hr as <-. unfold minInternedStringLen in Hlen. lia.
Qed.

Lemma short_string_never_interned_witness :
  len "xy" < minInternedStringLen /\
  let e := mkEncoder {["abcdef"%string := 0]} [] in
  let e' := Nat.iter 3 (fun e0 => snd (encodeInternedString "xy" true e0)) e in
  fst (encodeInternedString "xy" true e') = Ok tt /\
  e_dict e' = e_dict e /\
  e_w e' = e_w e ++ concat (repeat (literal_bytes "xy") 3).
Proof.
  split; [reflexivity|].
  apply (short_string_never_interned "xy"). reflexivity.
Defined.

(** ** Literals seen twice by the decoder *)

(** C10. The decoder appends every eligible literal it reads (interning
    on, at least three bytes, dictionary below 65,535 entries) to the
    decode dictionary and does not look for an equal entry: the
    dictionary grows also when it holds the string already, and a wire
    that carries the same literal twice leaves two entries with that
    string, at consecutive indices. *)
Theorem decoder_appends_without_lookup (s : string) (dict : list string)
    (dn rest : list byte) :
  minInternedStringLen <= len s < 2 ^ 32 ->
  (Z.of_nat (List.length dict) < maxDictLen ->
   decodeInternedStringValue (mkDecoder dict (mkReader dn (literal_bytes s ++ rest))) =
     (Ok s, mkDecoder (dict ++ [s]) (mkReader (rev (literal_bytes s) ++ dn) rest))) /\
  (Z.of_nat (List.length dict) + 1 < maxDictLen ->
   (s1 <- decodeInternedStringValue ;; s2 <- decodeInternedStringValue ;; ret (s1, s2))
       (mkDecoder dict (mkReader dn (literal_bytes s ++ literal_bytes s ++ rest))) =
     (Ok (s, s),
      mkDecoder (dict ++ [s; s])
        (mkReader (rev (literal_bytes s) ++ rev (literal_bytes s) ++ dn) rest)) /\
   (dict ++ [s; s]) !! List.length dict = Some s /\
   (dict ++ [s; s]) !! S (List.length dict) = Some s).
Proof.
  intros [Hmin Hmax].
  assert (Hlearn : forall dict0, Z.of_nat (List.length dict0) < maxDictLen ->
                                 learn true s dict0 = dict0 ++ [s]).
  { intros dict0 H0. unfold learn.
    destruct (Z.leb_spec minInternedStringLen (len s)); [|lia].
    destruct (Z.ltb_spec (Z.of_nat (List.length dict0)) maxDictLen); [reflexivity|lia]. }
  split.
  - intros Hroom. rewrite decodeInternedStringValue_literal by exact Hmax.
    now rewrite Hlearn.
  - intros Hroom. split; [|split].
    + unfold bind at 1. rewrite decodeInternedStringValue_literal by exact Hmax.
      unfold bind at 1. rewrite decodeInternedStringValue_literal by exact Hmax.
      rewrite (Hlearn dict) by lia.
      rewrite Hlearn by (rewrite length_app; cbn [List.length]; lia).
      unfold ret. rewrite <- !app_assoc. reflexivity.
    + rewrite lookup_app_r by lia. now rewrite Nat.sub_diag.
    + rewrite lookup_app_r by lia.
      replace (S (List.length dict) - List.length dict)%nat with 1%nat by lia.
      reflexivity.
Qed.

Lemma decoder_appends_without_lookup_witness :
  minInternedStringLen <= len "abcdef" < 2 ^ 32 /\
  decodeInternedStringValue
      (mkDecoder ["abcdef"%string] (mkReader [] (literal_bytes "abcdef" ++ [xc0]))) =
    (Ok "abcdef"%string,
     mkDecoder (["abcdef"%string] ++ ["abcdef"%string])
       (mkReader (rev (literal_bytes "abcdef") ++ []) [xc0])).
Proof.
  split; [vm_compute; split; [discriminate|reflexivity]|].
  apply (decoder_appends_without_lookup "abcdef" ["abcdef"%string] [] [xc0]).
  - vm_compute; split; [discriminate|reflexivity].
  - vm_compute. reflexivity.
Defined.

(** ** The interface-typed entry point *)

Lemma never_unexpected_ret {A} (a : A) : never_unexpected (ret a).
Proof. intros d. discriminate. Qed.

Lemma never_unexpected_bind {A B} (m : M Decoder A) (k : A -> M Decoder B) :
  never_unexpected m -> (forall a, never_unexpected (k a)) ->
  never_unexpected (bind m k).
Proof.
  intros Hm Hk d. unfold bind. specialize (Hm d).
  destruct (m d) as [[a|e] d1]; cbn [fst] in *.
  - apply Hk.
  - intros H. apply Hm. injection H as ->. reflexivity.
Qed.

Lemma never_unexpected_ReadByte : never_unexpected (on_s ReadByte).
Proof.
  intros d. unfold on_s, ReadByte. destruct (r_rest (d_s d)); discriminate.
Qed.

Lemma never_unexpected_readN (n : Z) : never_unexpected (readN n).
Proof.
  intros d. unfold readN, on_s, ReadFull.
  destruct (Z.to_nat n <=? List.length (r_rest (d_s d)))%nat; [discriminate|].
  destruct (r_rest (d_s d)); discriminate.
Qed.

Lemma never_unexpected_uint8 : never_unexpected uint8.
Proof.
  apply never_unexpected_bind;
    [apply never_unexpected_ReadByte | intros; apply never_unexpected_ret].
Qed.

Lemma never_unexpected_uint16 : never_unexpected uint16.
Proof.
  apply never_unexpected_bind;
    [apply never_unexpected_readN | intros; apply never_unexpected_ret].
Qed.

Lemma never_unexpected_uint32 : never_unexpected uint32.
Proof.
  apply never_unexpected_bind;
    [apply never_unexpected_readN | intros; apply never_unexpected_ret].
Qed.

Lemma never_unexpected_decodeInternedStringWithLen (n : Z) (intern : bool) :
  never_unexpected (decodeInternedStringWithLen n intern).
Proof.
  unfold decodeInternedStringWithLen.
  destruct (n <=? 0); [apply never_unexpected_ret|].
  apply never_unexpected_bind.
  - unfold stringWithLen. destruct (n <=? 0); [apply never_unexpected_ret|].
    apply never_unexpected_bind;
      [apply never_unexpected_readN | intros; apply never_unexpected_ret].
  - intros s. apply never_unexpected_bind; [|intros; apply never_unexpected_ret].
    intros d. destruct (intern && (minInternedStringLen <=? len s)
                        && (Z.of_nat (List.length (d_dict d)) <? maxDictLen));
      discriminate.
Qed.

Lemma never_unexpected_decodeInternedStringIndex (length : Z) :
  never_unexpected (decodeInternedStringIndex length).
Proof.
  unfold decodeInternedStringIndex.
  destruct (length =? 1).
  { apply never_unexpected_bind;
      [apply never_unexpected_ReadByte | intros; apply never_unexpected_ret]. }
  destruct (length =? 2).
  { apply never_unexpected_bind;
      [apply never_unexpected_readN | intros; apply never_unexpected_ret]. }
  destruct (length =? 4).
  { apply never_unexpected_bind;
      [apply never_unexpected_readN | intros; apply never_unexpected_ret]. }
  intros d. discriminate.
Qed.

Lemma never_unexpected_internedStringAtIndex (idx : Z) :
  never_unexpected (internedStringAtIndex idx).
Proof.
  intros d. unfold internedStringAtIndex.
  destruct (Z.of_nat (List.length (d_dict d)) <=? idx); [discriminate|].
  destruct (if idx <? 0 then None else d_dict d !! Z.to_nat idx); discriminate.
Qed.

Lemma never_unexpected_reference (c : byte) :
  Byte.eqb c msgpcode.FixExt1 || Byte.eqb c msgpcode.FixExt2
    || Byte.eqb c msgpcode.FixExt4 = true ->
  never_unexpected
    (h <- extHeader c ;;
     let '(typeID, length) := h in
     if negb (typeID =? internedStringExtID) then fail (ErrExtType typeID)
     else idx <- decodeInternedStringIndex length ;; internedStringAtIndex idx).
Proof.
  intros Hc. apply never_unexpected_bind.
  - unfold extHeader. apply never_unexpected_bind.
    + unfold parseExtLen.
      destruct (Byte.eqb c msgpcode.FixExt1); [apply never_unexpected_ret|].
      destruct (Byte.eqb c msgpcode.FixExt2); [apply never_unexpected_ret|].
      destruct (Byte.eqb c msgpcode.FixExt4); [apply never_unexpected_ret|].
      discriminate Hc.
    + intros extLen. apply never_unexpected_bind;
        [apply never_unexpected_ReadByte | intros; apply never_unexpected_ret].
  - intros [typeID length].
    destruct (negb (typeID =? internedStringExtID)); [intros d; discriminate|].
    apply never_unexpected_bind;
      [apply never_unexpected_decodeInternedStringIndex
      | intros; apply never_unexpected_internedStringAtIndex].
Qed.

(** The unexpected-code error comes only from the last line of
    [decodeInternedString], where nothing has been read or recorded. *)
Lemma decodeInternedString_unexpected (c : byte) (intern : bool) (d d' : Decoder) :
  decodeInternedString c intern d = (Err errUnexpectedCode, d') -> d' = d.
Proof.
  unfold decodeInternedString. intros Hrun.
  assert (Hfst : forall m : M Decoder string,
             never_unexpected m -> m d = (Err errUnexpectedCode, d') -> False).
  { intros m Hm Hmd. apply (Hm d). now rewrite Hmd. }
  destruct (msgpcode.IsFixedString c).
  { exfalso. eapply Hfst; [|exact Hrun].
    apply never_unexpected_decodeInternedStringWithLen. }
  destruct (Byte.eqb c msgpcode.Nil); [discriminate Hrun|].
  destruct (Byte.eqb c msgpcode.FixExt1 || Byte.eqb c msgpcode.FixExt2
            || Byte.eqb c msgpcode.FixExt4) eqn:Hext.
  { exfalso. eapply Hfst; [|exact Hrun]. now apply never_unexpected_reference. }
  destruct (Byte.eqb c msgpcode.Str8 || Byte.eqb c msgpcode.Bin8).
  { exfalso. eapply Hfst; [|exact Hrun].
    apply never_unexpected_bind; [apply never_unexpected_uint8|].
    intros n. apply never_unexpected_decodeInternedStringWithLen. }
  destruct (Byte.eqb c msgpcode.Str16 || Byte.eqb c msgpcode.Bin16).
  { exfalso. eapply Hfst; [|exact Hrun].
    apply never_unexpected_bind; [apply never_unexpected_uint16|].
    intros n. apply never_unexpected_decodeInternedStringWithLen. }
  destruct (Byte.eqb c msgpcode.Str32 || Byte.eqb c msgpcode.Bin32).
  { exfalso. eapply Hfst; [|exact Hrun].
    apply never_unexpected_bind; [apply never_unexpected_uint32|].
    intros n. apply never_unexpected_decodeInternedStringWithLen. }
  unfold fail in Hrun. now injection Hrun.
Qed.

Lemma readCode_unread (c : byte) (d d1 : Decoder) :
  readCode d = (Ok c, d1) -> on_s UnreadByte d1 = (Ok tt, d).
Proof.
  unfold readCode, on_s, ReadByte, UnreadByte.
  destruct d as [dict [dn rest]]. cbn [d_s d_dict r_rest r_done].
  destruct rest as [|b rest]; [discriminate|].
  intros H. injection H as <- <-. reflexivity.
Qed.

(** C4. The interface-typed entry point reads the code byte and tries
    the interned-string decoder on it.  A string it returns is bound as
    the value.  When it fails with the unexpected-code error, the input
    is rewound by exactly one byte, which restores the decoder as it was
    before the code byte was read, and the outcome is that of the host
    format's generic decoder run from there.  Any other error is
    returned as it is. *)
Theorem decodeInternedInterfaceValue_dispatch (value : Type)
    (ValueOf : string -> value) (decodeInterfaceValue : M Decoder value)
    (d d1 : Decoder) (c : byte) :
  readCode d = (Ok c, d1) ->
  (forall s d2, decodeInternedString c true d1 = (Ok s, d2) ->
     decodeInternedInterfaceValue value ValueOf decodeInterfaceValue d =
       (Ok (ValueOf s), d2)) /\
  (forall d2, decodeInternedString c true d1 = (Err errUnexpectedCode, d2) ->
     on_s UnreadByte d2 = (Ok tt, d) /\
     decodeInternedInterfaceValue value ValueOf decodeInterfaceValue d =
       decodeInterfaceValue d) /\
  (forall e d2, decodeInternedString c true d1 = (Err e, d2) ->
     e <> errUnexpectedCode ->
     decodeInternedInterfaceValue value ValueOf decodeInterfaceValue d = (Err e, d2)).
Proof.
  intros Hcode.
  split; [|split].
  - intros s d2 Hrun.
    unfold decodeInternedInterfaceValue, bind at 1. rewrite Hcode.
    cbv beta iota. rewrite Hrun. reflexivity.
  - intros d2 Hrun.
    pose proof (decodeInternedString_unexpected _ _ _ _ Hrun) as ->.
    pose proof (readCode_unread _ _ _ Hcode) as Hun.
    split; [exact Hun|].
    unfold decodeInternedInterfaceValue, bind at 1. rewrite Hcode.
    cbv beta iota. rewrite Hrun. cbn [is_errUnexpectedCode negb].
    unfold bind. rewrite Hun. reflexivity.
  - intros e d2 Hrun Hne.
    unfold decodeInternedInterfaceValue, bind at 1. rewrite Hcode.
    cbv beta iota. rewrite Hrun.
    destruct e; try reflexivity. contradiction.
Qed.

Lemma decodeInternedInterfaceValue_dispatch_witness :
  readCode (NewDecoder [x2a; xc0]) = (Ok x2a, mkDecoder [] (mkReader [x2a] [xc0])) /\
  decodeInternedString x2a true (mkDecoder [] (mkReader [x2a] [xc0])) =
    (Err errUnexpectedCode, mkDecoder [] (mkReader [x2a] [xc0])) /\
  on_s UnreadByte (mkDecoder [] (mkReader [x2a] [xc0])) =
    (Ok tt, NewDecoder [x2a; xc0]) /\
  decodeInternedInterfaceValue (string + Z) inl decodeOneByte (NewDecoder [x2a; xc0]) =
    decodeOneByte (NewDecoder [x2a; xc0]).
Proof.
  split; [reflexivity|]. split; [reflexivity|].
  apply (decodeInternedInterfaceValue_dispatch (string + Z) inl decodeOneByte
           (NewDecoder [x2a; xc0]) (mkDecoder [] (mkReader [x2a] [xc0])) x2a
           eq_refl).
  reflexivity.
Defined.

(** ** Encoder and decoder in lockstep *)

Lemma reference_bytes_shape (idx : Z) :
  0 <= idx <= MaxUint32 ->
  exists c payload,
    reference_bytes idx = c :: reserved_tag :: payload /\
    be_value payload = idx /\
    reference_envelope c payload.
Proof.
  unfold MaxUint32. intros Hidx.
  unfold reference_bytes, encodeInternedStringIndex, MaxUint8, MaxUint16, MaxUint32.
  destruct (Z.leb_spec idx 255).
  { exists msgpcode.FixExt1, [byte_of_Z (idx mod 2 ^ 8)].
    split; [reflexivity|]. split; [|left; split; reflexivity].
    unfold be_value. simpl. rewrite byte_to_of_Z.
    change (2 ^ 8) with 256. rewrite Z.mod_mod by lia. rewrite Z.mod_small; lia. }
  destruct (Z.leb_spec idx 65535).
  { exists msgpcode.FixExt2,
      [byte_of_Z (Z.shiftr (idx mod 2 ^ 16) 8); byte_of_Z (idx mod 2 ^ 16)].
    split; [reflexivity|]. split; [|right; left; split; reflexivity].
    rewrite Z.mod_small by (change (2 ^ 16) with 65536; lia).
    apply be_value_bytes16. change (2 ^ 16) with 65536; lia. }
  rewrite (Z.mod_small idx (2 ^ 64)) by lia.
  destruct (Z.leb_spec idx 4294967295); [|lia].
  exists msgpcode.FixExt4,
    [byte_of_Z (Z.shiftr (idx mod 2 ^ 32) 24); byte_of_Z (Z.shiftr (idx mod 2 ^ 32) 16);
     byte_of_Z (Z.shiftr (idx mod 2 ^ 32) 8); byte_of_Z (idx mod 2 ^ 32)].
  split; [reflexivity|]. split; [|right; right; split; reflexivity].
  rewrite Z.mod_small by (change (2 ^ 32) with 4294967296; lia).
  apply be_value_bytes32. change (2 ^ 32) with 4294967296; lia.
Qed.

Lemma is_reference_reference_bytes (idx : Z) :
  0 <= idx <= MaxUint32 -> is_reference (reference_bytes idx) = true.
Proof.
  intros Hidx. destruct (reference_bytes_shape idx Hidx) as (c & payload & -> & _ & Henv).
  destruct Henv as [[-> _]|[[-> _]|[-> _]]]; reflexivity.
Qed.

Lemma is_reference_literal_bytes (s : string) : is_reference (literal_bytes s) = false.
Proof.
  rewrite literal_bytes_eq. pose proof (len_nonneg s) as Hnn.
  unfold string_header, encodeStringLen.
  destruct (Z.ltb_spec (len s) 32) as [Hlt|_].
  - rewrite fixed_code_value by lia.
    cbn [writeCode write snd e_w NewEncoder app is_reference].
    destruct (bytes_of_string s) as [|tag tl]; [reflexivity|].
    assert (Hne : forall c, 191 < byte_to_Z c ->
                            Byte.eqb (byte_of_Z (160 + len s)) c = false).
    { intros c Hc. destruct (Byte.eqb (byte_of_Z (160 + len s)) c) eqn:E; [|reflexivity].
      apply Byte.byte_dec_bl in E. rewrite <- E, byte_to_of_Z, Z.mod_small in Hc; lia. }
    rewrite !Hne by (vm_compute; reflexivity). reflexivity.
  - destruct (len s <? 256); [reflexivity|].
    destruct (len s <=? MaxUint16); reflexivity.
Qed.

(** Decoding the wire form of a reference to an entry of the decode
    dictionary returns the entry and changes nothing but the position. *)
Lemma decodeInternedStringValue_reference (idx : Z) (s : string) (dict : list string)
    (dn rest : list byte) :
  0 <= idx -> dict !! Z.to_nat idx = Some s ->
  Z.of_nat (List.length dict) <= maxDictLen ->
  decodeInternedStringValue (mkDecoder dict (mkReader dn (reference_bytes idx ++ rest))) =
    (Ok s, mkDecoder dict (mkReader (rev (reference_bytes idx) ++ dn) rest)).
Proof.
  intros Hidx Hs Hcap.
  pose proof (lookup_lt_Some _ _ _ Hs) as Hlt.
  assert (Hrange : 0 <= idx <= MaxUint32)
    by (unfold maxDictLen, MaxUint16 in Hcap; unfold MaxUint32; lia).
  destruct (reference_bytes_shape idx Hrange) as (c & payload & -> & Hval & Henv).
  cbn [app rev]. rewrite <- !app_assoc. cbn [app].
  unfold decodeInternedStringValue, bind. rewrite readCode_cons.
  rewrite (decodeInternedString_reference c true payload rest (c :: dn) dict Henv).
  rewrite Hval. unfold internedStringAtIndex. cbn [d_dict].
  destruct (Z.leb_spec (Z.of_nat (List.length dict)) idx); [lia|].
  destruct (Z.ltb_spec idx 0); [lia|].
  rewrite Hs. reflexivity.
Qed.

Lemma encodeInternedString_known (s : string) (intern : bool) (e : Encoder) (idx : Z) :
  minInternedStringLen <= len s -> e_dict e !! s = Some idx ->
  encodeInternedString s intern e = encodeInternedStringIndex idx e.
Proof.
  intros Hlen Hs. unfold encodeInternedString.
  destruct (Z.leb_spec minInternedStringLen (len s)); [|lia].
  now rewrite Hs.
Qed.

Lemma encodeInternedString_new (s : string) (e : Encoder) :
  minInternedStringLen <= len s -> e_dict e !! s = None ->
  Z.of_nat (size (e_dict e)) < maxDictLen ->
  encodeInternedString s true e =
    (Ok tt, mkEncoder (<[s := Z.of_nat (size (e_dict e))]> (e_dict e))
              (e_w e ++ literal_bytes s)).
Proof.
  intros Hlen Hs Hroom. unfold encodeInternedString.
  destruct (Z.leb_spec minInternedStringLen (len s)); [|lia].
  rewrite Hs. cbn [andb].
  destruct (Z.ltb_spec (Z.of_nat (size (e_dict e))) maxDictLen); [|lia].
  unfold bind, set_e_dict. rewrite encodeNormalString_write. reflexivity.
Qed.

Lemma encodeInternedString_literal_only (s : string) (intern : bool) (e : Encoder) :
  minInternedStringLen <= len s -> e_dict e !! s = None ->
  intern = false \/ maxDictLen <= Z.of_nat (size (e_dict e)) ->
  encodeInternedString s intern e =
    (Ok tt, mkEncoder (e_dict e) (e_w e ++ literal_bytes s)).
Proof.
  intros Hlen Hs Hno. unfold encodeInternedString.
  destruct (Z.leb_spec minInternedStringLen (len s)); [|lia].
  rewrite Hs.
  destruct (intern && (Z.of_nat (size (e_dict e)) <? maxDictLen)) eqn:E.
  - apply andb_true_iff in E as [-> E]. apply Z.ltb_lt in E.
    destruct Hno; [discriminate|lia].
  - apply encodeNormalString_write.
Qed.

Lemma mirror_insert (ed : gmap string Z) (dd : list string) (s : string) :
  mirror ed dd -> ed !! s = None -> Z.of_nat (size ed) < maxDictLen ->
  mirror (<[s := Z.of_nat (size ed)]> ed) (dd ++ [s]).
Proof.
  intros (Hsize & Hcap & Hiff) Hs Hroom.
  split; [|split].
  - rewrite map_size_insert_None by exact Hs.
    rewrite length_app, Hsize. cbn [List.length]. lia.
  - rewrite length_app. cbn [List.length]. lia.
  - intros s' i. rewrite lookup_insert_Some, lookup_snoc_Some, Hiff.
    split.
    + intros [[<- <-]|[Hne [Hi Hl]]].
      * split; [lia|]. right. rewrite Nat2Z.id. auto.
      * split; [exact Hi|]. left. split; [|exact Hl].
        eapply lookup_lt_Some; exact Hl.
    + intros [Hi [[Hlt Hl]|[Heq <-]]].
      * right. split; [|auto].
        intros <-. assert (ed !! s = Some i) as Hc by (apply Hiff; auto).
        congruence.
      * left. split; [reflexivity|]. lia.
Qed.

(** One string through both sides.  From mirrored dictionaries, the
    encoder accepts [s] and appends a chunk; the decoder, given that
    chunk, returns [s]; and the dictionaries are mirrored again. *)
Lemma lockstep_step (s : string) (e : Encoder) (dd : list string) :
  mirror (e_dict e) dd -> len s < 2 ^ 32 ->
  exists chunk ed' dd',
    encodeInternedStringValue s e = (Ok tt, mkEncoder ed' (e_w e ++ chunk)) /\
    (forall dn rest,
       decodeInternedStringValue (mkDecoder dd (mkReader dn (chunk ++ rest))) =
         (Ok s, mkDecoder dd' (mkReader (rev chunk ++ dn) rest))) /\
    mirror ed' dd'.
Proof.
  intros Hm Hlen. pose proof Hm as (Hsize & Hcap & Hiff).
  unfold encodeInternedStringValue.
  destruct (Z.ltb_spec (len s) minInternedStringLen) as [Hshort|Hlong].
  { exists (literal_bytes s), (e_dict e), dd.
    split; [now apply encodeInternedString_short|]. split; [|exact Hm].
    intros dn rest. rewrite decodeInternedStringValue_literal by exact Hlen.
    unfold learn. destruct (Z.leb_spec minInternedStringLen (len s)); [lia|].
    reflexivity. }
  destruct (e_dict e !! s) as [idx|] eqn:Hs.
  { apply Hiff in Hs as Hdd. destruct Hdd as [Hidx Hdd].
    pose proof (lookup_lt_Some _ _ _ Hdd) as Hlt.
    exists (reference_bytes idx), (e_dict e), dd.
    split; [|split; [|exact Hm]].
    - rewrite (encodeInternedString_known s true e idx Hlong Hs).
      apply encodeInternedStringIndex_write.
      unfold maxDictLen, MaxUint16 in Hcap. unfold MaxUint32. lia.
    - intros dn rest. now apply decodeInternedStringValue_reference. }
  destruct (Z.ltb_spec (Z.of_nat (size (e_dict e))) maxDictLen) as [Hroom|Hfull].
  { exists (literal_bytes s), (<[s := Z.of_nat (size (e_dict e))]> (e_dict e)), (dd ++ [s]).
    split; [now apply encodeInternedString_new|].
    split; [|now apply mirror_insert].
    intros dn rest. rewrite decodeInternedStringValue_literal by exact Hlen.
    unfold learn. destruct (Z.leb_spec minInternedStringLen (len s)); [|lia].
    destruct (Z.ltb_spec (Z.of_nat (List.length dd)) maxDictLen); [reflexivity|lia]. }
  exists (literal_bytes s), (e_dict e), dd.
  split; [apply encodeInternedString_literal_only; auto|].
  split; [|exact Hm].
  intros dn rest. rewrite decodeInternedStringValue_literal by exact Hlen.
  unfold learn. destruct (Z.ltb_spec (Z.of_nat (List.length dd)) maxDictLen); [lia|].
  now rewrite andb_false_r.
Qed.

Lemma emitted_append (m : M Encoder unit) (e : Encoder) (r : result unit)
    (ed' : gmap string Z) (chunk : list byte) :
  m e = (r, mkEncoder ed' (e_w e ++ chunk)) -> emitted m e = chunk.
Proof.
  intros H. unfold emitted. rewrite H. cbn [snd e_w]. apply drop_app_length.
Qed.

Lemma mirror_empty : mirror ∅ [].
Proof.
  split; [reflexivity|]. split; [unfold maxDictLen, MaxUint16; cbn; lia|].
  intros s i. rewrite lookup_empty, lookup_nil. split; [discriminate|intros [_ H]; discriminate].
Qed.

(** A whole stream through both sides: the encoder accepts every string,
    its output is the concatenation of the chunks, and the decoder reads
    the strings back in order, consuming exactly that output. *)
Lemma lockstep_run (l : list string) :
  forall (e : Encoder) (dd : list string),
    mirror (e_dict e) dd -> Forall (fun x => len x < 2 ^ 32) l ->
    exists ed' dd',
      EncodeStrings l e = (Ok tt, mkEncoder ed' (e_w e ++ concat (wire_chunks l e))) /\
      (forall dn rest,
         DecodeStrings (List.length l)
             (mkDecoder dd (mkReader dn (concat (wire_chunks l e) ++ rest))) =
           (Ok l, mkDecoder dd' (mkReader (rev (concat (wire_chunks l e)) ++ dn) rest))) /\
      mirror ed' dd'.
Proof.
  induction l as [|s l IH]; intros e dd Hm Hall.
  - exists (e_dict e), dd. cbn [EncodeStrings wire_chunks concat DecodeStrings List.length].
    rewrite app_nil_r. destruct e. auto.
  - apply Forall_cons in Hall as [Hs Hall].
    destruct (lockstep_step s e dd Hm Hs) as (chunk & ed1 & dd1 & Henc & Hdec & Hm1).
    destruct (IH (mkEncoder ed1 (e_w e ++ chunk)) dd1 Hm1 Hall)
      as (ed' & dd' & Henc' & Hdec' & Hm').
    exists ed', dd'. cbn [EncodeStrings wire_chunks concat List.length DecodeStrings].
    rewrite (emitted_append _ _ _ _ _ Henc). rewrite Henc. cbn [snd].
    split; [|split; [|exact Hm']].
    + unfold bind. rewrite Henc, Henc'. cbn [e_w]. now rewrite <- app_assoc.
    + intros dn rest. unfold bind at 1. rewrite <- app_assoc, Hdec.
      unfold bind at 1. rewrite Hdec'. unfold ret.
      rewrite rev_app_distr, <- app_assoc. reflexivity.
Qed.

(** ** What the encode dictionary holds *)

(** An entry of the dictionary stays where it is. *)
Lemma encodeInternedString_keeps (s : string) (intern : bool) (e : Encoder)
    (s' : string) (i : Z) :
  e_dict e !! s' = Some i ->
  e_dict (snd (encodeInternedString s intern e)) !! s' = Some i.
Proof.
  intros Hs'. unfold encodeInternedString.
  destruct (minInternedStringLen <=? len s).
  - destruct (e_dict e !! s) as [idx|] eqn:Hs.
    + unfold encodeInternedStringIndex.
      repeat match goal with
             | |- context [if ?b then _ else _] => destruct b
             end; exact Hs'.
    + destruct (intern && (Z.of_nat (size (e_dict e)) <? maxDictLen)).
      * unfold bind, set_e_dict. rewrite encodeNormalString_write. cbn [snd write e_dict].
        rewrite lookup_insert_ne; [exact Hs'|]. intros ->. congruence.
      * rewrite encodeNormalString_write. exact Hs'.
  - rewrite encodeNormalString_write. exact Hs'.
Qed.

(** An entry of the dictionary was there before, or is the string just
    offered. *)
Lemma encodeInternedString_origin (s : string) (intern : bool) (e : Encoder)
    (s' : string) (i : Z) :
  e_dict (snd (encodeInternedString s intern e)) !! s' = Some i ->
  e_dict e !! s' = Some i \/ s' = s.
Proof.
  unfold encodeInternedString.
  destruct (minInternedStringLen <=? len s).
  - destruct (e_dict e !! s) as [idx|] eqn:Hs.
    + unfold encodeInternedStringIndex.
      repeat match goal with
             | |- context [if ?b then _ else _] => destruct b
             end; auto.
    + destruct (intern && (Z.of_nat (size (e_dict e)) <? maxDictLen)).
      * unfold bind, set_e_dict. rewrite encodeNormalString_write. cbn [snd write e_dict].
        rewrite lookup_insert_Some. intros [[-> _]|[_ H]]; auto.
      * rewrite encodeNormalString_write. auto.
  - rewrite encodeNormalString_write. auto.
Qed.

Lemma EncodeStrings_origin (l : list string) :
  forall (e : Encoder) (s' : string) (i : Z),
    e_dict (snd (EncodeStrings l e)) !! s' = Some i ->
    e_dict e !! s' = Some i \/ In s' l.
Proof.
  induction l as [|s l IH]; intros e s' i H.
  - left. exact H.
  - cbn [EncodeStrings] in H. unfold bind, encodeInternedStringValue in H.
    destruct (encodeInternedString s true e) as [[[]|err] e1] eqn:Hstep.
    + apply IH in H as [H|H]; [|right; now right].
      replace e1 with (snd (encodeInternedString s true e)) in H by now rewrite Hstep.
      apply encodeInternedString_origin in H as [H| ->]; [now left|right; now left].
    + cbn [snd] in H.
      replace e1 with (snd (encodeInternedString s true e)) in H by now rewrite Hstep.
      apply encodeInternedString_origin in H as [H| ->]; [now left|right; now left].
Qed.

(** Once [s] is in the dictionary at [idx], every later offer of [s] is
    written as the reference to [idx]. *)
Lemma occurrences_known (s : string) (idx : Z) (l : list string) :
  minInternedStringLen <= len s -> 0 <= idx <= MaxUint32 ->
  forall e, e_dict e !! s = Some idx ->
            occurrences s l (wire_chunks l e) =
              repeat (reference_bytes idx) (count_occ string_dec l s).
Proof.
  intros Hlen Hidx. induction l as [|s' l IH]; intros e Hs; [reflexivity|].
  cbn [wire_chunks occurrences count_occ].
  pose proof (encodeInternedString_keeps s' true e s idx Hs) as Hkeep.
  destruct (String.eqb_spec s' s) as [->|Hne].
  - destruct (string_dec s s) as [_|Hc]; [|contradiction].
    cbn [repeat]. f_equal; [|now apply IH].
    unfold encodeInternedStringValue.
    eapply emitted_append.
    rewrite (encodeInternedString_known s true e idx Hlen Hs).
    rewrite encodeInternedStringIndex_write by exact Hidx. reflexivity.
  - destruct (string_dec s' s) as [Hc|_]; [contradiction|]. now apply IH.
Qed.

Lemma occurrences_absent (s : string) (l1 l2 : list string)
    (c1 c2 : list (list byte)) :
  ~ In s l1 -> List.length c1 = List.length l1 ->
  occurrences s (l1 ++ l2) (c1 ++ c2) = occurrences s l2 c2.
Proof.
  revert c1. induction l1 as [|s' l1 IH]; intros c1 Hin Hlen.
  - destruct c1; [reflexivity|discriminate].
  - destruct c1 as [|c c1]; [discriminate|].
    cbn [app occurrences].
    destruct (String.eqb_spec s' s) as [->|Hne].
    + exfalso. apply Hin. now left.
    + apply IH; [|now injection Hlen]. intros H. apply Hin. now right.
Qed.

Lemma length_wire_chunks (l : list string) :
  forall e, List.length (wire_chunks l e) = List.length l.
Proof.
  induction l as [|s l IH]; intros e; [reflexivity|].
  cbn [wire_chunks List.length]. now rewrite IH.
Qed.

Lemma wire_chunks_app (l1 l2 : list string) :
  forall e, fst (EncodeStrings l1 e) = Ok tt ->
            wire_chunks (l1 ++ l2) e =
              wire_chunks l1 e ++ wire_chunks l2 (snd (EncodeStrings l1 e)).
Proof.
  induction l1 as [|s l1 IH]; intros e Hok; [reflexivity|].
  cbn [app wire_chunks EncodeStrings] in *. unfold bind in *.
  destruct (encodeInternedStringValue s e) as [[[]|err] e1]; [|discriminate Hok].
  cbn [snd]. now rewrite IH.
Qed.

(** ** Round trip of a repeated string *)

(** C1, as amended.  A fresh encoder is offered the strings of [l], each
    shorter than 2^32 bytes, with interning on; [s] has at least three
    bytes, occurs in [l] first after the prefix [pre], and the dictionary
    holds fewer than 65,535 entries at that point.  Then the encoder
    accepts the whole stream; of the chunks written for [s] the first is
    its literal and each of the others is the reference to the index [s]
    was given, one for each later occurrence; and a fresh decoder reads
    the stream back as [l], every string in its place. *)
Theorem interned_string_round_trip (pre post : list string) (s : string) :
  let l := pre ++ s :: post in
  let e1 := snd (EncodeStrings pre NewEncoder) in
  let idx := Z.of_nat (size (e_dict e1)) in
  let chunks := wire_chunks l NewEncoder in
  minInternedStringLen <= len s ->
  Forall (fun x => len x < 2 ^ 32) l ->
  ~ In s pre ->
  idx < maxDictLen ->
  (fst (EncodeStrings l NewEncoder) = Ok tt /\
   e_w (snd (EncodeStrings l NewEncoder)) = concat chunks) /\
  occurrences s l chunks =
    literal_bytes s :: repeat (reference_bytes idx) (count_occ string_dec post s) /\
  is_reference (literal_bytes s) = false /\
  is_reference (reference_bytes idx) = true /\
  exists dd,
    DecodeStrings (List.length l) (NewDecoder (concat chunks)) =
      (Ok l, mkDecoder dd (mkReader (rev (concat chunks)) [])).
Proof.
  intros l e1 idx chunks Hlen Hall Hnotin Hroom.
  pose proof Hall as Hall'. apply Forall_app in Hall' as [Hpre Hspost].
  destruct (lockstep_run pre NewEncoder [] mirror_empty Hpre)
    as (ed1 & dd1 & Henc1 & _ & Hm1).
  destruct (lockstep_run l NewEncoder [] mirror_empty Hall)
    as (ed' & dd' & Henc & Hdec & _).
  assert (He1 : e_dict e1 = ed1) by (subst e1; now rewrite Henc1).
  assert (Hnone : e_dict e1 !! s = None).
  { destruct (e_dict e1 !! s) as [i|] eqn:E; [|reflexivity].
    apply EncodeStrings_origin in E as [E|E]; [|contradiction].
    cbn in E. rewrite lookup_empty in E. discriminate E. }
  assert (Hidx : 0 <= idx <= MaxUint32).
  { unfold maxDictLen, MaxUint16 in Hroom. unfold MaxUint32. subst idx. lia. }
  split; [|split; [|split; [|split]]].
  - rewrite Henc. split; reflexivity.
  - subst chunks l.
    rewrite wire_chunks_app by now rewrite Henc1.
    rewrite occurrences_absent by (exact Hnotin || apply length_wire_chunks).
    fold e1. cbn [wire_chunks occurrences]. rewrite String.eqb_refl.
    pose proof (encodeInternedString_new s e1 Hlen Hnone Hroom) as Hnew.
    fold idx in Hnew. unfold encodeInternedStringValue.
    rewrite (emitted_append _ _ _ _ _ Hnew). f_equal.
    apply occurrences_known; [exact Hlen|exact Hidx|].
    rewrite Hnew. cbn [snd e_dict]. apply lookup_insert_eq.
  - apply is_reference_literal_bytes.
  - now apply is_reference_reference_bytes.
  - exists dd'. specialize (Hdec [] []). rewrite !app_nil_r in Hdec. exact Hdec.
Qed.

Lemma interned_string_round_trip_witness :
  let pre := [] in
  let post := ["xy"; "abcdef"; "abcdef"]%string in
  let s := "abcdef"%string in
  let l := pre ++ s :: post in
  let idx := Z.of_nat (size (e_dict (snd (EncodeStrings pre NewEncoder)))) in
  let chunks := wire_chunks l NewEncoder in
  (minInternedStringLen <= len s /\ Forall (fun x => len x < 2 ^ 32) l /\
   ~ In s pre /\ idx < maxDictLen) /\
  (fst (EncodeStrings l NewEncoder) = Ok tt /\
   e_w (snd (EncodeStrings l NewEncoder)) = concat chunks) /\
  occurrences s l chunks =
    literal_bytes s :: repeat (reference_bytes idx) (count_occ string_dec post s) /\
  is_reference (literal_bytes s) = false /\
  is_reference (reference_bytes idx) = true /\
  exists dd,
    DecodeStrings (List.length l) (NewDecoder (concat chunks)) =
      (Ok l, mkDecoder dd (mkReader (rev (concat chunks)) [])).
Proof.
  cbv zeta.
  assert (H1 : minInternedStringLen <= len "abcdef") by (vm_compute; discriminate).
  assert (H2 : Forall (fun x => len x < 2 ^ 32)
                 ([] ++ ["abcdef"; "xy"; "abcdef"; "abcdef"]%string))
    by (repeat constructor).
  assert (H3 : ~ In "abcdef"%string []) by (intros []).
  assert (H4 : Z.of_nat (size (e_dict (snd (EncodeStrings [] NewEncoder)))) < maxDictLen)
    by (vm_compute; reflexivity).
  split; [auto|].
  exact (interned_string_round_trip [] ["xy"; "abcdef"; "abcdef"]%string
           "abcdef"%string H1 H2 H3 H4).
Defined.

(** Scenario A of the specification, byte for byte: the literal
    "abcdef", the literal "xy", and two references to index 0. *)
Example scenario_A_wire :
  EncodeStrings ["abcdef"; "xy"; "abcdef"; "abcdef"]%string NewEncoder =
    (Ok tt,
     mkEncoder {["abcdef"%string := 0]}
       [xa6; x61; x62; x63; x64; x65; x66; xa2; x78; x79;
        xd4; x80; x00; xd4; x80; x00]).
Proof. vm_compute. reflexivity. Qed.

Example scenario_A_decode :
  fst (DecodeStrings 4
         (NewDecoder [xa6; x61; x62; x63; x64; x65; x66; xa2; x78; x79;
                      xd4; x80; x00; xd4; x80; x00])) =
    Ok ["abcdef"; "xy"; "abcdef"; "abcdef"]%string.
Proof. vm_compute. reflexivity. Qed.

(** ** A full dictionary *)

Lemma encodeInternedString_full (s : string) (intern : bool) (e : Encoder) :
  maxDictLen <= Z.of_nat (size (e_dict e)) ->
  e_dict (snd (encodeInternedString s intern e)) = e_dict e.
Proof.
  intros Hfull. unfold encodeInternedString.
  destruct (minInternedStringLen <=? len s).
  - destruct (e_dict e !! s) as [idx|].
    + unfold encodeInternedStringIndex.
      repeat match goal with
             | |- context [if ?b then _ else _] => destruct b
             end; reflexivity.
    + destruct (Z.ltb_spec (Z.of_nat (size (e_dict e))) maxDictLen); [lia|].
      rewrite andb_false_r, encodeNormalString_write. reflexivity.
  - rewrite encodeNormalString_write. reflexivity.
Qed.

Lemma EncodeAll_full (reqs : list (string * bool)) :
  forall e, maxDictLen <= Z.of_nat (size (e_dict e)) ->
            e_dict (snd (EncodeAll reqs e)) = e_dict e.
Proof.
  induction reqs as [|[s intern] reqs IH]; intros e Hfull; [reflexivity|].
  cbn [EncodeAll]. unfold bind.
  pose proof (encodeInternedString_full s intern e Hfull) as Hstep.
  destruct (encodeInternedString s intern e) as [[[]|err] e1]; cbn [snd] in *.
  - rewrite IH by (rewrite Hstep; exact Hfull). exact Hstep.
  - exact Hstep.
Qed.

(** ** Reaching the full dictionary *)

Lemma key_of_inj (a b : N) : key_of a = key_of b -> a = b.
Proof.
  unfold key_of. intros H.
  change (String "k" (String "e" (String "y" (pretty a))) =
          String "k" (String "e" (String "y" (pretty b)))) in H.
  injection H as H. now apply (inj pretty) in H.
Qed.

Lemma len_key_of (n : N) : minInternedStringLen <= len (key_of n).
Proof.
  unfold key_of, len, minInternedStringLen.
  change ("key" +:+ pretty n) with (String "k" (String "e" (String "y" (pretty n)))).
  cbn [String.length]. lia.
Qed.

Lemma In_keys_from (x : string) (n : nat) :
  forall i, In x (keys_from n i) -> exists j, (i <= j)%N /\ x = key_of j.
Proof.
  induction n as [|n IH]; intros i Hin; [contradiction|].
  destruct Hin as [<-|Hin].
  - exists i. split; [lia|reflexivity].
  - apply IH in Hin as (j & Hj & ->). exists j. split; [lia|reflexivity].
Qed.

Lemma NoDup_keys_from (n : nat) : forall i, List.NoDup (keys_from n i).
Proof.
  induction n as [|n IH]; intros i; cbn [keys_from]; constructor.
  - intros Hin. apply In_keys_from in Hin as (j & Hj & Heq).
    apply key_of_inj in Heq. lia.
  - apply IH.
Qed.

Lemma length_keys_from (n : nat) : forall i, List.length (keys_from n i) = n.
Proof.
  induction n as [|n IH]; intros i; cbn [keys_from List.length]; [reflexivity|].
  now rewrite IH.
Qed.

(** Fresh eligible strings offered while the dictionary has room are all
    written as literals and take the next indices in order. *)
Lemma EncodeStrings_fresh (l : list string) :
  forall e,
    List.NoDup l ->
    (forall s, In s l -> minInternedStringLen <= len s /\ e_dict e !! s = None) ->
    Z.of_nat (size (e_dict e)) + Z.of_nat (List.length l) <= maxDictLen ->
    EncodeStrings l e =
      (Ok tt,
       mkEncoder (fst (fold_left intern_next l (e_dict e, Z.of_nat (size (e_dict e)))))
         (e_w e ++ concat (map literal_bytes l))).
Proof.
  induction l as [|s l IH]; intros e Hnd Hfresh Hroom.
  - cbn. rewrite app_nil_r. destruct e. reflexivity.
  - apply List.NoDup_cons_iff in Hnd as [Hnotin Hnd].
    destruct (Hfresh s (or_introl eq_refl)) as [Hlen Hnone].
    cbn [List.length] in Hroom.
    cbn [EncodeStrings]. unfold bind, encodeInternedStringValue.
    rewrite encodeInternedString_new by (auto; lia).
    rewrite IH.
    + cbn [e_dict e_w fold_left map concat]. unfold intern_next at 2. cbn [fst snd].
      rewrite map_size_insert_None by exact Hnone.
      rewrite Nat2Z.inj_succ, <- Z.add_1_r, <- app_assoc. reflexivity.
    + exact Hnd.
    + intros s' Hin. split; [apply Hfresh; now right|].
      cbn [e_dict]. rewrite lookup_insert_ne.
      * apply Hfresh. now right.
      * intros ->. contradiction.
    + cbn [e_dict]. rewrite map_size_insert_None by exact Hnone. lia.
Qed.

Lemma full_encoder_reachable :
  EncodeStrings keys NewEncoder =
    (Ok tt, mkEncoder full_dict (concat (map literal_bytes keys))).
Proof.
  unfold keys, full_dict.
  rewrite EncodeStrings_fresh.
  - reflexivity.
  - apply NoDup_keys_from.
  - intros s Hin. apply In_keys_from in Hin as (j & _ & ->).
    split; [apply len_key_of|apply lookup_empty].
  - rewrite length_keys_from. cbn [NewEncoder e_dict].
    rewrite map_size_empty, Z2Nat.id; unfold maxDictLen, MaxUint16; lia.
Qed.

Lemma encodeInternedString_at_cap (ed : gmap string Z) (s : string) :
  maxDictLen <= Z.of_nat (size ed) -> ed !! s = None ->
  minInternedStringLen <= len s ->
  forall w, encodeInternedString s true (mkEncoder ed w) =
              (Ok tt, mkEncoder ed (w ++ literal_bytes s)).
Proof.
  intros Hfull Hnone Hlen w.
  apply (encodeInternedString_literal_only s true (mkEncoder ed w)); auto.
Qed.

Lemma fold_intern_next_lookup_None (l : list string) :
  forall (m : gmap string Z) (c : Z) (s : string),
    ~ In s l -> m !! s = None ->
    fst (fold_left intern_next l (m, c)) !! s = None.
Proof.
  induction l as [|k l IH]; intros m c s Hnotin Hnone; [exact Hnone|].
  cbn [fold_left]. unfold intern_next at 2. cbn [fst snd].
  apply IH.
  - intros Hin. apply Hnotin. now right.
  - rewrite lookup_insert_ne; [exact Hnone|].
    intros ->. apply Hnotin. now left.
Qed.

Lemma fold_intern_next_size (l : list string) :
  forall (m : gmap string Z) (c : Z),
    List.NoDup l -> (forall s, In s l -> m !! s = None) ->
    size (fst (fold_left intern_next l (m, c))) = (size m + List.length l)%nat.
Proof.
  induction l as [|k l IH]; intros m c Hnd Hfresh.
  - cbn. lia.
  - apply List.NoDup_cons_iff in Hnd as [Hnotin Hnd].
    cbn [fold_left List.length]. unfold intern_next at 2. cbn [fst snd].
    rewrite IH.
    + rewrite map_size_insert_None by (apply Hfresh; now left). lia.
    + exact Hnd.
    + intros s Hin. rewrite lookup_insert_ne.
      * apply Hfresh. now right.
      * intros ->. contradiction.
Qed.

Lemma full_dict_size : Z.of_nat (size full_dict) = maxDictLen.
Proof.
  unfold full_dict, keys.
  rewrite fold_intern_next_size.
  - rewrite map_size_empty, length_keys_from, Nat.add_0_l, Z2Nat.id;
      unfold maxDictLen, MaxUint16; lia.
  - apply NoDup_keys_from.
  - intros s _. apply lookup_empty.
Qed.

Lemma not_In_keys (s : string) :
  (forall j, s <> key_of j) -> ~ In s keys.
Proof.
  intros Hne Hin. apply In_keys_from in Hin as (j & _ & Heq). exact (Hne j Heq).
Qed.

Lemma full_dict_lookup_None (s : string) :
  (forall j, s <> key_of j) -> full_dict !! s = None.
Proof.
  intros Hne. unfold full_dict.
  apply fold_intern_next_lookup_None; [now apply not_In_keys|apply lookup_empty].
Qed.

Lemma abcdef_not_key (j : N) : "abcdef"%string <> key_of j.
Proof. intros H. discriminate H. Qed.

(** C2. Once the encode dictionary holds 65,535 entries, a string of at
    least three bytes that is not in it is written as a plain literal
    and the dictionary stays as it is, also when the string is offered
    again after any further offers, with either intern flag.  A decoder
    whose dictionary holds 65,535 entries never changes it, and reads
    such a literal back as the string. *)
Theorem full_dictionary_is_permanent (e : Encoder) (s : string) :
  maxDictLen <= Z.of_nat (size (e_dict e)) ->
  e_dict e !! s = None ->
  minInternedStringLen <= len s ->
  (forall reqs intern,
     let e' := snd (EncodeAll reqs e) in
     e_dict e' = e_dict e /\
     encodeInternedString s intern e' =
       (Ok tt, mkEncoder (e_dict e) (e_w e' ++ literal_bytes s)) /\
     is_reference (literal_bytes s) = false) /\
  (forall c intern d,
     maxDictLen <= Z.of_nat (List.length (d_dict d)) ->
     d_dict (snd (decodeInternedString c intern d)) = d_dict d) /\
  (len s < 2 ^ 32 ->
   forall dict dn rest,
     maxDictLen <= Z.of_nat (List.length dict) ->
     decodeInternedStringValue (mkDecoder dict (mkReader dn (literal_bytes s ++ rest))) =
       (Ok s, mkDecoder dict (mkReader (rev (literal_bytes s) ++ dn) rest))).
Proof.
  intros Hfull Hnone Hlen. split; [|split].
  - intros reqs intern e'.
    assert (Hd : e_dict e' = e_dict e) by (subst e'; now apply EncodeAll_full).
    split; [exact Hd|]. split; [|apply is_reference_literal_bytes].
    rewrite <- Hd. apply encodeInternedString_literal_only.
    + exact Hlen.
    + now rewrite Hd.
    + right. now rewrite Hd.
  - intros c intern d Hd.
    destruct (dict_effect_decodeInternedString c intern d)
      as [H|(s' & _ & _ & _ & _ & Hroom)]; [exact H|lia].
  - intros Hmax dict dn rest Hd.
    rewrite decodeInternedStringValue_literal by exact Hmax.
    unfold learn. destruct (Z.ltb_spec (Z.of_nat (List.length dict)) maxDictLen); [lia|].
    now rewrite andb_false_r.
Qed.

(** The encoder that has interned [key0] ... [key65534] is full, and
    "abcdef" is not among its entries. *)
Lemma full_dictionary_is_permanent_witness :
  (maxDictLen <= Z.of_nat (size (e_dict full_encoder)) /\
   e_dict full_encoder !! "abcdef"%string = None /\
   minInternedStringLen <= len "abcdef") /\
  let e' := snd (EncodeAll [("abcdef"%string, true)] full_encoder) in
  e_dict e' = e_dict full_encoder /\
  encodeInternedString "abcdef" true e' =
    (Ok tt, mkEncoder (e_dict full_encoder) (e_w e' ++ literal_bytes "abcdef")) /\
  is_reference (literal_bytes "abcdef") = false.
Proof.
  assert (H1 : maxDictLen <= Z.of_nat (size (e_dict full_encoder)))
    by (cbn [full_encoder e_dict]; rewrite full_dict_size; lia).
  assert (H2 : e_dict full_encoder !! "abcdef"%string = None)
    by (exact (full_dict_lookup_None "abcdef" abcdef_not_key)).
  assert (H3 : minInternedStringLen <= len "abcdef") by (vm_compute; discriminate).
  split; [auto|].
  exact (proj1 (full_dictionary_is_permanent full_encoder "abcdef"%string H1 H2 H3)
           [("abcdef"%string, true)] true).
Defined.

(** C1, as stated, fails at the cap: a fresh encoder that has interned
    the 65,535 strings [key0], [key1], ... and is then offered "abcdef"
    twice writes the literal both times and no reference. *)
Lemma interned_string_round_trip_counterexample :
  let s := "abcdef"%string in
  let l := keys ++ [s; s] in
  let chunks := wire_chunks l NewEncoder in
  minInternedStringLen <= len s /\
  fst (EncodeStrings l NewEncoder) = Ok tt /\
  occurrences s l chunks = [literal_bytes s; literal_bytes s] /\
  is_reference (literal_bytes s) = false.
Proof.
  cbv zeta.
  assert (Hlen : minInternedStringLen <= len "abcdef") by (vm_compute; discriminate).
  pose proof (full_dict_lookup_None "abcdef" abcdef_not_key) as Hnone.
  pose proof full_dict_size as Hsize.
  assert (Hfull : maxDictLen <= Z.of_nat (size full_dict)) by (rewrite Hsize; lia).
  pose proof (encodeInternedString_at_cap full_dict "abcdef" Hfull Hnone Hlen) as Hstep.
  assert (Hrun : forall l0 e, fst (EncodeStrings keys e) = Ok tt ->
             EncodeStrings (keys ++ l0) e = EncodeStrings l0 (snd (EncodeStrings keys e))).
  { intros l0. induction keys as [|k ks IH]; intros e Hok; [reflexivity|].
    cbn [app EncodeStrings] in *. unfold bind in *.
    destruct (encodeInternedStringValue k e) as [[[]|err] e1]; [|discriminate Hok].
    now apply IH. }
  split; [exact Hlen|]. split; [|split].
  - rewrite Hrun by now rewrite full_encoder_reachable.
    rewrite full_encoder_reachable. cbn [snd EncodeStrings].
    unfold bind, encodeInternedStringValue. rewrite !Hstep. reflexivity.
  - rewrite wire_chunks_app by now rewrite full_encoder_reachable.
    rewrite occurrences_absent.
    + rewrite full_encoder_reachable. cbn [snd wire_chunks occurrences].
      unfold encodeInternedStringValue.
      rewrite (emitted_append _ _ _ _ _ (Hstep _)), Hstep. cbn [snd].
      rewrite (emitted_append _ _ _ _ _ (Hstep _)). reflexivity.
    + apply not_In_keys, abcdef_not_key.
    + apply length_wire_chunks.
  - apply is_reference_literal_bytes.
Qed.

(** * Further properties *)

(** ** The encode dictionary over a whole stream *)

Lemma mirror_index (ed : gmap string Z) (dd : list string) (s : string) (i : Z) :
  mirror ed dd -> ed !! s = Some i -> 0 <= i < Z.of_nat (size ed) /\ i < maxDictLen.
Proof.
  intros (Hsize & Hcap & Hiff) Hs. apply Hiff in Hs as [Hi Hdd].
  apply lookup_lt_Some in Hdd. lia.
Qed.

Lemma mirror_inj (ed : gmap string Z) (dd : list string) (s1 s2 : string) (i : Z) :
  mirror ed dd -> ed !! s1 = Some i -> ed !! s2 = Some i -> s1 = s2.
Proof.
  intros (_ & _ & Hiff) H1 H2.
  apply Hiff in H1 as [_ H1]. apply Hiff in H2 as [_ H2]. congruence.
Qed.

(** One offer, with either flag, from a dictionary that mirrors some
    decode dictionary: the call succeeds, appends a literal or a
    reference to a known index, and the new dictionary mirrors again. *)
Lemma encode_step (s : string) (intern : bool) (e : Encoder) (dd : list string) :
  mirror (e_dict e) dd ->
  exists chunk ed' dd',
    encodeInternedString s intern e = (Ok tt, mkEncoder ed' (e_w e ++ chunk)) /\
    mirror ed' dd' /\
    (chunk = literal_bytes s \/
     (minInternedStringLen <= len s /\
      exists idx, e_dict e !! s = Some idx /\ 0 <= idx < maxDictLen /\
                  chunk = reference_bytes idx)) /\
    (forall s' i, ed' !! s' = Some i ->
       e_dict e !! s' = Some i \/
       (s' = s /\ intern = true /\ minInternedStringLen <= len s)).
Proof.
  intros Hm.
  destruct (Z.ltb_spec (len s) minInternedStringLen) as [Hshort|Hlong].
  { exists (literal_bytes s), (e_dict e), dd.
    split; [now apply encodeInternedString_short|].
    split; [exact Hm|]. split; [now left|]. intros s' i H. now left. }
  destruct (e_dict e !! s) as [idx|] eqn:Hs.
  { destruct (mirror_index _ _ _ _ Hm Hs) as [Hidx Hcap].
    exists (reference_bytes idx), (e_dict e), dd.
    split; [|split; [exact Hm|split]].
    2: { right. split; [exact Hlong|]. exists idx. repeat split; auto; lia. }
    2: { intros s' i H. now left. }
    rewrite (encodeInternedString_known s intern e idx Hlong Hs).
    apply encodeInternedStringIndex_write.
    unfold maxDictLen, MaxUint16 in Hcap. unfold MaxUint32. lia. }
  destruct intern.
  - destruct (Z.ltb_spec (Z.of_nat (size (e_dict e))) maxDictLen) as [Hroom|Hfull].
    + exists (literal_bytes s), (<[s := Z.of_nat (size (e_dict e))]> (e_dict e)), (dd ++ [s]).
      split; [now apply encodeInternedString_new|].
      split; [now apply mirror_insert|]. split; [now left|].
      intros s' i. rewrite lookup_insert_Some. intros [[<- _]|[_ H]]; auto.
    + exists (literal_bytes s), (e_dict e), dd.
      split; [apply encodeInternedString_literal_only; auto|].
      split; [exact Hm|]. split; [now left|]. intros s' i H. now left.
  - exists (literal_bytes s), (e_dict e), dd.
    split; [apply encodeInternedString_literal_only; auto|].
    split; [exact Hm|]. split; [now left|]. intros s' i H. now left.
Qed.

Lemma length_string_header (l : Z) : (1 <= List.length (string_header l))%nat.
Proof.
  unfold string_header, encodeStringLen.
  destruct (l <? 32); [cbn; lia|].
  destruct (l <? 256); [cbn; lia|].
  destruct (l <=? MaxUint16); cbn; lia.
Qed.

Lemma length_literal_bytes (s : string) :
  (1 + String.length s <= List.length (literal_bytes s))%nat.
Proof.
  rewrite literal_bytes_eq, length_app, length_bytes_of_string.
  pose proof (length_string_header (len s)). lia.
Qed.

Lemma length_reference_bytes (idx : Z) :
  0 <= idx < maxDictLen -> (List.length (reference_bytes idx) <= 4)%nat.
Proof.
  unfold maxDictLen, MaxUint16. intros Hidx.
  unfold reference_bytes, encodeInternedStringIndex, MaxUint8, MaxUint16.
  destruct (Z.leb_spec idx 255); [cbn; lia|].
  destruct (Z.leb_spec idx 65535); [cbn; lia|lia].
Qed.

Lemma EncodeAll_run (reqs : list (string * bool)) :
  forall (e : Encoder) (dd : list string),
    mirror (e_dict e) dd ->
    exists ed' dd' out,
      EncodeAll reqs e = (Ok tt, mkEncoder ed' (e_w e ++ out)) /\
      mirror ed' dd' /\
      (List.length out <=
         List.length (concat (map (fun r => literal_bytes (fst r)) reqs)))%nat /\
      (forall s i, ed' !! s = Some i ->
         e_dict e !! s = Some i \/
         (In (s, true) reqs /\ minInternedStringLen <= len s)).
Proof.
  induction reqs as [|[s intern] reqs IH]; intros e dd Hm.
  - exists (e_dict e), dd, []. cbn [EncodeAll]. rewrite app_nil_r.
    split; [destruct e; reflexivity|]. split; [exact Hm|].
    split; [cbn; lia|]. intros s i H. now left.
  - destruct (encode_step s intern e dd Hm)
      as (chunk & ed1 & dd1 & Henc & Hm1 & Hchunk & Horigin).
    destruct (IH (mkEncoder ed1 (e_w e ++ chunk)) dd1 Hm1)
      as (ed' & dd' & out & Hrun & Hm' & Hlen & Horigin').
    exists ed', dd', (chunk ++ out).
    cbn [EncodeAll]. unfold bind. rewrite Henc, Hrun. cbn [e_w e_dict] in *.
    rewrite <- app_assoc. split; [reflexivity|]. split; [exact Hm'|]. split.
    + cbn [map concat fst]. rewrite !length_app.
      assert (List.length chunk <= List.length (literal_bytes s))%nat; [|lia].
      destruct Hchunk as [->|(Hlong & idx & _ & Hidx & ->)]; [lia|].
      pose proof (length_reference_bytes idx Hidx).
      pose proof (length_literal_bytes s).
      unfold minInternedStringLen, len in Hlong. lia.
    + intros s' i Hs'. destruct (Horigin' s' i Hs') as [H|[Hin Hl]].
      * destruct (Horigin s' i H) as [H0|(-> & -> & Hl)]; [now left|].
        right. split; [now left|exact Hl].
      * right. split; [now right|exact Hl].
Qed.

(** X1. Whatever strings a fresh encoder is offered, and with whatever
    intern flags, every call succeeds (the index-too-large error cannot
    occur), and the dictionary it ends with holds at most 65,535 entries,
    each a string of at least three bytes that was offered with the
    intern flag set; the indices are the numbers below the dictionary
    size, and no two strings share one. *)
Theorem encoder_dictionary_invariant (reqs : list (string * bool)) :
  let e := snd (EncodeAll reqs NewEncoder) in
  fst (EncodeAll reqs NewEncoder) = Ok tt /\
  Z.of_nat (size (e_dict e)) <= maxDictLen /\
  (forall s i, e_dict e !! s = Some i ->
     0 <= i < Z.of_nat (size (e_dict e)) /\
     minInternedStringLen <= len s /\ In (s, true) reqs) /\
  (forall s1 s2 i, e_dict e !! s1 = Some i -> e_dict e !! s2 = Some i -> s1 = s2).
Proof.
  destruct (EncodeAll_run reqs NewEncoder [] mirror_empty)
    as (ed' & dd' & out & Hrun & Hm & _ & Horigin).
  cbv zeta. rewrite Hrun. cbn [fst snd e_dict].
  split; [reflexivity|]. split; [|split].
  - destruct Hm as (Hsize & Hcap & _). rewrite Hsize. exact Hcap.
  - intros s i Hs. split; [exact (proj1 (mirror_index _ _ _ _ Hm Hs))|].
    destruct (Horigin s i Hs) as [H|[Hin Hl]]; [|auto].
    cbn in H. rewrite lookup_empty in H. discriminate H.
  - intros s1 s2 i. apply (mirror_inj _ _ _ _ _ Hm).
Qed.

(** X2. Interning never makes the output longer: what a fresh encoder
    writes for a stream of strings is at most as long as the plain
    literals of those strings, because a reference takes at most four
    bytes and replaces a literal of at least four. *)
Theorem interning_never_lengthens (reqs : list (string * bool)) :
  (List.length (e_w (snd (EncodeAll reqs NewEncoder))) <=
     List.length (concat (map (fun r => literal_bytes (fst r)) reqs)))%nat.
Proof.
  destruct (EncodeAll_run reqs NewEncoder [] mirror_empty)
    as (ed' & dd' & out & Hrun & _ & Hlen & _).
  rewrite Hrun. exact Hlen.
Qed.

(** ** Whole streams through both sides *)

(** X3. A stream of strings, each shorter than 2^32 bytes, written by a
    fresh encoder is read back by a fresh decoder as the same strings in
    the same order, with or without the dictionary cap being reached; the
    decoder consumes exactly the encoder's output and leaves what follows
    it, and at the end the two dictionaries mirror each other (same size,
    same string at every index). *)
Theorem stream_round_trip (l : list string) (rest : list byte) :
  Forall (fun x => len x < 2 ^ 32) l ->
  let wire := e_w (snd (EncodeStrings l NewEncoder)) in
  fst (EncodeStrings l NewEncoder) = Ok tt /\
  exists dd,
    DecodeStrings (List.length l) (NewDecoder (wire ++ rest)) =
      (Ok l, mkDecoder dd (mkReader (rev wire) rest)) /\
    mirror (e_dict (snd (EncodeStrings l NewEncoder))) dd.
Proof.
  intros Hall.
  destruct (lockstep_run l NewEncoder [] mirror_empty Hall)
    as (ed' & dd' & Henc & Hdec & Hm).
  cbv zeta. rewrite Henc. cbn [fst snd e_w e_dict NewEncoder app].
  split; [reflexivity|]. exists dd'. split; [|exact Hm].
  specialize (Hdec [] rest). rewrite app_nil_r in Hdec. exact Hdec.
Qed.

Lemma stream_round_trip_witness :
  Forall (fun x => len x < 2 ^ 32) ["abcdef"; "xy"; "abcdef"]%string /\
  let wire := e_w (snd (EncodeStrings ["abcdef"; "xy"; "abcdef"]%string NewEncoder)) in
  fst (EncodeStrings ["abcdef"; "xy"; "abcdef"]%string NewEncoder) = Ok tt /\
  exists dd,
    DecodeStrings (List.length ["abcdef"; "xy"; "abcdef"]%string)
        (NewDecoder (wire ++ [xc0])) =
      (Ok ["abcdef"; "xy"; "abcdef"]%string, mkDecoder dd (mkReader (rev wire) [xc0])) /\
    mirror (e_dict (snd (EncodeStrings ["abcdef"; "xy"; "abcdef"]%string NewEncoder))) dd.
Proof.
  assert (H : Forall (fun x => len x < 2 ^ 32) ["abcdef"; "xy"; "abcdef"]%string)
    by (repeat constructor).
  split; [exact H|].
  exact (stream_round_trip ["abcdef"; "xy"; "abcdef"]%string [xc0] H).
Defined.

(** ** The decode dictionary on arbitrary input *)

Lemma dict_effect_decodeInternedStringValue : dict_effect true decodeInternedStringValue.
Proof.
  apply dict_effect_bind; [apply keeps_dict_readCode|]. intros c d.
  pose proof (dict_effect_decodeInternedString c true d) as H.
  destruct (decodeInternedString c true d) as [[s|err] d1]; cbn [fst snd] in *.
  - exact H.
  - destruct H as [H|(s' & Hr & _)]; [|discriminate Hr].
    left. destruct (is_errUnexpectedCode err); exact H.
Qed.

Lemma dict_effect_invariant (intern : bool) (m : M Decoder string) (d : Decoder) :
  dict_effect intern m ->
  Z.of_nat (List.length (d_dict d)) <= maxDictLen ->
  Forall (fun s => minInternedStringLen <= len s) (d_dict d) ->
  (exists added, d_dict (snd (m d)) = d_dict d ++ added) /\
  Z.of_nat (List.length (d_dict (snd (m d)))) <= maxDictLen /\
  Forall (fun s => minInternedStringLen <= len s) (d_dict (snd (m d))).
Proof.
  intros Hm Hcap Hall.
  destruct (Hm d) as [->|(s & _ & -> & _ & Hlen & Hroom)].
  - split; [exists []; now rewrite app_nil_r|]. auto.
  - split; [now exists [s]|]. split.
    + rewrite length_app. cbn [List.length]. lia.
    + apply Forall_app. split; [exact Hall|]. now constructor.
Qed.

(** X4. Whatever bytes the decoder is given, well-formed or not, a run
    of string decodes only ever appends to the decode dictionary: the
    entries it had stay at their indices, the dictionary never grows
    beyond 65,535 entries, and every entry has at least three bytes. *)
Theorem decode_dictionary_invariant (n : nat) (d : Decoder) :
  Z.of_nat (List.length (d_dict d)) <= maxDictLen ->
  Forall (fun s => minInternedStringLen <= len s) (d_dict d) ->
  let d' := snd (DecodeStrings n d) in
  (exists added, d_dict d' = d_dict d ++ added) /\
  Z.of_nat (List.length (d_dict d')) <= maxDictLen /\
  Forall (fun s => minInternedStringLen <= len s) (d_dict d').
Proof.
  revert d. induction n as [|n IH]; intros d Hcap Hall; cbv zeta.
  - cbn [DecodeStrings ret snd]. split; [exists []; now rewrite app_nil_r|]. auto.
  - destruct (dict_effect_invariant true decodeInternedStringValue d
                dict_effect_decodeInternedStringValue Hcap Hall)
      as ([added Hadd] & Hcap1 & Hall1).
    remember (snd (DecodeStrings (S n) d)) as d' eqn:Hd'.
    cbn [DecodeStrings] in Hd'. unfold bind, ret in Hd'.
    destruct (decodeInternedStringValue d) as [[s|err] d1]; cbn [snd] in *.
    + destruct (IH d1 Hcap1 Hall1) as ([added' Hadd'] & Hcap2 & Hall2).
      assert (Hd2 : d' = snd (DecodeStrings n d1))
        by (destruct (DecodeStrings n d1) as [[l|err] d2]; exact Hd').
      rewrite Hd2. split; [|split; [exact Hcap2|exact Hall2]].
      exists (added ++ added'). now rewrite Hadd', Hadd, app_assoc.
    + subst d'. split; [now exists added|]. auto.
Qed.

Lemma decode_dictionary_invariant_witness :
  let d := mkDecoder ["abc"%string] (mkReader [] [xa3; x78; x79; x7a; xd4; x80; x07; xff]) in
  (Z.of_nat (List.length (d_dict d)) <= maxDictLen /\
   Forall (fun s => minInternedStringLen <= len s) (d_dict d)) /\
  let d' := snd (DecodeStrings 3 d) in
  (exists added, d_dict d' = d_dict d ++ added) /\
  Z.of_nat (List.length (d_dict d')) <= maxDictLen /\
  Forall (fun s => minInternedStringLen <= len s) (d_dict d').
Proof.
  cbv zeta.
  assert (H1 : Z.of_nat (List.length ["abc"%string]) <= maxDictLen)
    by (vm_compute; discriminate).
  assert (H2 : Forall (fun s => minInternedStringLen <= len s) ["abc"%string])
    by (repeat constructor; vm_compute; discriminate).
  split; [split; [exact H1|exact H2]|].
  exact (decode_dictionary_invariant 3
           (mkDecoder ["abc"%string]
              (mkReader [] [xa3; x78; x79; x7a; xd4; x80; x07; xff])) H1 H2).
Defined.

(** X13. A decode that fails leaves the decode dictionary as it was, for
    every code byte, flag and input: [decodeInternedString] and the
    string-only entry point change the dictionary only in a call that
    returns a string. *)
Theorem decode_error_keeps_dictionary (c : byte) (intern : bool) (d : Decoder) :
  (forall e, fst (decodeInternedString c intern d) = Err e ->
             d_dict (snd (decodeInternedString c intern d)) = d_dict d) /\
  (forall e, fst (decodeInternedStringValue d) = Err e ->
             d_dict (snd (decodeInternedStringValue d)) = d_dict d).
Proof.
  split; intros e He.
  - destruct (dict_effect_decodeInternedString c intern d) as [H|(s & Hr & _)];
      [exact H|]. rewrite He in Hr. discriminate Hr.
  - destruct (dict_effect_decodeInternedStringValue d) as [H|(s & Hr & _)];
      [exact H|]. rewrite He in Hr. discriminate Hr.
Qed.

(** ** The intern flag switched off *)

(** X12. With the intern flag off neither side writes to its
    dictionary, whatever the string, code byte or input; a string the
    encoder already knows is written as a reference all the same. *)
Theorem intern_flag_off_is_read_only :
  (forall reqs e, Forall (fun r => snd r = false) reqs ->
                  e_dict (snd (EncodeAll reqs e)) = e_dict e) /\
  (forall c d, d_dict (snd (decodeInternedString c false d)) = d_dict d) /\
  (forall s e idx, minInternedStringLen <= len s -> e_dict e !! s = Some idx ->
                   0 <= idx <= MaxUint32 ->
                   encodeInternedString s false e =
                     (Ok tt, mkEncoder (e_dict e) (e_w e ++ reference_bytes idx))).
Proof.
  assert (Hstep : forall s e, e_dict (snd (encodeInternedString s false e)) = e_dict e).
  { intros s e. unfold encodeInternedString.
    destruct (minInternedStringLen <=? len s).
    - destruct (e_dict e !! s) as [idx|].
      + unfold encodeInternedStringIndex.
        repeat match goal with
               | |- context [if ?b then _ else _] => destruct b
               end; reflexivity.
      + cbn [andb]. now rewrite encodeNormalString_write.
    - now rewrite encodeNormalString_write. }
  split; [|split].
  - induction reqs as [|[s intern] reqs IH]; intros e Hall; [reflexivity|].
    apply Forall_cons in Hall as [Hs Hall]. cbn [snd] in Hs. subst intern.
    cbn [EncodeAll]. unfold bind. specialize (Hstep s e).
    destruct (encodeInternedString s false e) as [[[]|err] e1]; cbn [snd] in *.
    + now rewrite IH.
    + exact Hstep.
  - intros c d.
    destruct (dict_effect_decodeInternedString c false d) as [H|(s & _ & _ & Hf & _)];
      [exact H|discriminate Hf].
  - intros s e idx Hlen Hs Hidx.
    rewrite (encodeInternedString_known s false e idx Hlen Hs).
    now apply encodeInternedStringIndex_write.
Qed.

Lemma decode_error_keeps_dictionary_witness :
  let d := mkDecoder ["abc"%string] (mkReader [xa5] [x68; x65]) in
  fst (decodeInternedString xa5 true d) = Err ErrUnexpectedEOF /\
  d_dict (snd (decodeInternedString xa5 true d)) = d_dict d.
Proof.
  cbv zeta.
  assert (H : fst (decodeInternedString xa5 true
                     (mkDecoder ["abc"%string] (mkReader [xa5] [x68; x65]))) =
              Err ErrUnexpectedEOF) by reflexivity.
  split; [exact H|].
  exact (proj1 (decode_error_keeps_dictionary xa5 true
                  (mkDecoder ["abc"%string] (mkReader [xa5] [x68; x65])))
           ErrUnexpectedEOF H).
Defined.

(** ** The errors of the decoder *)

Lemma post_ret {A} (a : A) (Q : A -> Prop) (E : error -> Prop) :
  Q a -> post (ret a) Q E.
Proof. intros H d. exact H. Qed.

Lemma post_fail {A} (e : error) (Q : A -> Prop) (E : error -> Prop) :
  E e -> post (fail e) Q E.
Proof. intros H d. exact H. Qed.

Lemma post_bind {A B} (m : M Decoder A) (k : A -> M Decoder B)
    (Q : A -> Prop) (R : B -> Prop) (E : error -> Prop) :
  post m Q E -> (forall a, Q a -> post (k a) R E) -> post (bind m k) R E.
Proof.
  intros Hm Hk d. unfold bind. specialize (Hm d).
  destruct (m d) as [[a|e] d1]; cbn [fst] in *.
  - apply Hk. exact Hm.
  - exact Hm.
Qed.

Lemma post_weaken {A} (m : M Decoder A) (Q Q' : A -> Prop) (E E' : error -> Prop) :
  post m Q E -> (forall a, Q a -> Q' a) -> (forall e, E e -> E' e) -> post m Q' E'.
Proof.
  intros Hm HQ HE d. specialize (Hm d).
  destruct (fst (m d)); auto.
Qed.

Lemma post_ReadByte : post (on_s ReadByte) (fun _ => True) io_error.
Proof.
  intros d. unfold on_s, ReadByte.
  destruct (r_rest (d_s d)); cbn; [now left|exact I].
Qed.

Lemma post_readN (n : Z) : post (readN n) (fun _ => True) io_error.
Proof.
  intros d. unfold readN, on_s, ReadFull.
  destruct (Z.to_nat n <=? List.length (r_rest (d_s d)))%nat; cbn; [exact I|].
  destruct (r_rest (d_s d)); [now left|now right].
Qed.

Lemma BigEndian_Uint16_nonneg (b : list byte) : 0 <= BigEndian_Uint16 b.
Proof.
  unfold BigEndian_Uint16. destruct b as [|b0 [|b1 b]]; try lia.
  pose proof (byte_to_Z_range b0). pose proof (byte_to_Z_range b1).
  apply Z.lor_nonneg. split; [lia|]. apply Z.shiftl_nonneg. lia.
Qed.

Lemma BigEndian_Uint32_nonneg (b : list byte) : 0 <= BigEndian_Uint32 b.
Proof.
  unfold BigEndian_Uint32. destruct b as [|b0 [|b1 [|b2 [|b3 b]]]]; try lia.
  pose proof (byte_to_Z_range b0). pose proof (byte_to_Z_range b1).
  pose proof (byte_to_Z_range b2). pose proof (byte_to_Z_range b3).
  repeat (apply Z.lor_nonneg; split); try apply Z.shiftl_nonneg; lia.
Qed.

Lemma post_uint8 : post uint8 (fun _ => True) io_error.
Proof.
  eapply post_bind; [apply post_ReadByte|]. intros c _. now apply post_ret.
Qed.

Lemma post_uint16 : post uint16 (fun _ => True) io_error.
Proof.
  eapply post_bind; [apply post_readN|]. intros c _. now apply post_ret.
Qed.

Lemma post_uint32 : post uint32 (fun _ => True) io_error.
Proof.
  eapply post_bind; [apply post_readN|]. intros c _. now apply post_ret.
Qed.

Lemma post_decodeInternedStringWithLen (n : Z) (intern : bool) :
  post (decodeInternedStringWithLen n intern) (fun _ => True) io_error.
Proof.
  unfold decodeInternedStringWithLen.
  destruct (n <=? 0); [now apply post_ret|].
  eapply post_bind with (Q := fun _ => True).
  - unfold stringWithLen. destruct (n <=? 0); [now apply post_ret|].
    eapply post_bind; [apply post_readN|]. intros b _. now apply post_ret.
  - intros s _. eapply post_bind with (Q := fun _ => True);
      [|intros; now apply post_ret].
    intros d. destruct (intern && (minInternedStringLen <=? len s)
                        && (Z.of_nat (List.length (d_dict d)) <? maxDictLen));
      exact I.
Qed.

(** With a length of 1, 2 or 4 the index decoder returns a non-negative
    index or an error of the byte source. *)
Lemma post_decodeInternedStringIndex (length : Z) :
  length = 1 \/ length = 2 \/ length = 4 ->
  post (decodeInternedStringIndex length) (fun idx => 0 <= idx) io_error.
Proof.
  intros Hl. unfold decodeInternedStringIndex.
  destruct Hl as [-> | [-> | ->]]; decide_guards.
  - eapply post_bind; [apply post_ReadByte|]. intros c _. apply post_ret.
    apply byte_to_Z_range.
  - eapply post_bind; [apply post_readN|]. intros b _. apply post_ret.
    apply BigEndian_Uint16_nonneg.
  - eapply post_bind; [apply post_readN|]. intros b _. apply post_ret.
    apply BigEndian_Uint32_nonneg.
Qed.

Lemma post_internedStringAtIndex (idx : Z) :
  0 <= idx ->
  post (internedStringAtIndex idx) (fun _ => True) (fun e => e = ErrIndexMissing idx).
Proof.
  intros Hidx d. unfold internedStringAtIndex.
  destruct (Z.leb_spec (Z.of_nat (List.length (d_dict d))) idx); [reflexivity|].
  destruct (Z.ltb_spec idx 0); [lia|].
  destruct (d_dict d !! Z.to_nat idx) eqn:E; [exact I|].
  apply lookup_ge_None in E. lia.
Qed.

Lemma post_extHeader_fixed (c : byte) :
  Byte.eqb c msgpcode.FixExt1 || Byte.eqb c msgpcode.FixExt2
    || Byte.eqb c msgpcode.FixExt4 = true ->
  post (extHeader c) (fun h => snd h = 1 \/ snd h = 2 \/ snd h = 4) io_error.
Proof.
  intros Hc. unfold extHeader.
  eapply post_bind with (Q := fun l => l = 1 \/ l = 2 \/ l = 4).
  - unfold parseExtLen.
    destruct (Byte.eqb c msgpcode.FixExt1); [apply post_ret; auto|].
    destruct (Byte.eqb c msgpcode.FixExt2); [apply post_ret; auto|].
    destruct (Byte.eqb c msgpcode.FixExt4); [apply post_ret; auto|].
    discriminate Hc.
  - intros extLen Hl. eapply post_bind; [apply post_ReadByte|].
    intros extID _. apply post_ret. exact Hl.
Qed.

Lemma post_decodeInternedString (c : byte) (intern : bool) :
  post (decodeInternedString c intern) (fun _ => True) decode_error.
Proof.
  assert (Hio : forall e, io_error e -> decode_error e)
    by (intros e H; right; right; now right).
  unfold decodeInternedString.
  destruct (msgpcode.IsFixedString c).
  { eapply post_weaken; [apply post_decodeInternedStringWithLen|auto|exact Hio]. }
  destruct (Byte.eqb c msgpcode.Nil); [now apply post_ret|].
  destruct (Byte.eqb c msgpcode.FixExt1 || Byte.eqb c msgpcode.FixExt2
            || Byte.eqb c msgpcode.FixExt4) eqn:Hext.
  { eapply post_bind.
    - eapply post_weaken; [now apply post_extHeader_fixed|intros a H; exact H|exact Hio].
    - intros [typeID length] Hl. cbn [snd] in Hl.
      destruct (Z.eqb_spec typeID internedStringExtID) as [_|Hne]; cbn [negb].
      + eapply post_bind.
        * eapply post_weaken;
            [now apply post_decodeInternedStringIndex|intros a H; exact H|exact Hio].
        * intros idx Hidx. eapply post_weaken;
            [now apply post_internedStringAtIndex|auto|].
          intros e ->. right. right. left. eauto.
      + apply post_fail. right. left. eauto. }
  destruct (Byte.eqb c msgpcode.Str8 || Byte.eqb c msgpcode.Bin8).
  { eapply post_bind with (Q := fun _ => True).
    - eapply post_weaken; [apply post_uint8|auto|exact Hio].
    - intros n _. eapply post_weaken;
        [apply post_decodeInternedStringWithLen|auto|exact Hio]. }
  destruct (Byte.eqb c msgpcode.Str16 || Byte.eqb c msgpcode.Bin16).
  { eapply post_bind with (Q := fun _ => True).
    - eapply post_weaken; [apply post_uint16|auto|exact Hio].
    - intros n _. eapply post_weaken;
        [apply post_decodeInternedStringWithLen|auto|exact Hio]. }
  destruct (Byte.eqb c msgpcode.Str32 || Byte.eqb c msgpcode.Bin32).
  { eapply post_bind with (Q := fun _ => True).
    - eapply post_weaken; [apply post_uint32|auto|exact Hio].
    - intros n _. eapply post_weaken;
        [apply post_decodeInternedStringWithLen|auto|exact Hio]. }
  apply post_fail. now left.
Qed.

(** X5. Whatever the code byte, the flag and the input, an error of
    [decodeInternedString] is one of four: the unexpected-code error, the
    extension-type error (carrying a tag other than the reserved one), the
    index-does-not-exist error (carrying a non-negative index), or an
    end-of-input error of the byte source.  It never panics on a slice
    index and never reports an unsupported index length. *)
Theorem decodeInternedString_errors (c : byte) (intern : bool) (d : Decoder) (e : error) :
  fst (decodeInternedString c intern d) = Err e ->
  decode_error e /\
  (forall idx, e <> PanicIndex idx) /\ (forall length, e <> ErrIndexLength length).
Proof.
  intros He. pose proof (post_decodeInternedString c intern d) as H.
  rewrite He in H. split; [exact H|].
  split; intros x ->;
    destruct H as [H|[(t & _ & H)|[(i & _ & H)|[H|H]]]]; discriminate H.
Qed.

Lemma decodeInternedString_errors_witness :
  let d := mkDecoder ["abc"%string] (mkReader [xd5] [x80; xff; xff]) in
  fst (decodeInternedString xd5 true d) = Err (ErrIndexMissing 65535) /\
  decode_error (ErrIndexMissing 65535) /\
  (forall idx, ErrIndexMissing 65535 <> PanicIndex idx) /\
  (forall length, ErrIndexMissing 65535 <> ErrIndexLength length).
Proof.
  cbv zeta.
  assert (H : fst (decodeInternedString xd5 true
                     (mkDecoder ["abc"%string] (mkReader [xd5] [x80; xff; xff]))) =
              Err (ErrIndexMissing 65535)) by reflexivity.
  split; [exact H|].
  exact (decodeInternedString_errors xd5 true
           (mkDecoder ["abc"%string] (mkReader [xd5] [x80; xff; xff]))
           (ErrIndexMissing 65535) H).
Defined.

(** ** Which codes the string decoder takes *)

Lemma decodeInternedString_no_case (c : byte) (intern : bool) :
  string_code c = false -> decodeInternedString c intern = fail errUnexpectedCode.
Proof.
  unfold string_code, decodeInternedString. intros H.
  repeat (apply orb_false_iff in H; destruct H as [H ?]).
  rewrite H.
  repeat match goal with
         | Hb : ?b = false |- _ => rewrite Hb; clear Hb
         end.
  reflexivity.
Qed.

Lemma decodeInternedString_has_case (c : byte) (intern : bool) :
  string_code c = true -> never_unexpected (decodeInternedString c intern).
Proof.
  unfold string_code, decodeInternedString. intros H.
  destruct (msgpcode.IsFixedString c);
    [apply never_unexpected_decodeInternedStringWithLen|].
  destruct (Byte.eqb c msgpcode.Nil); [apply never_unexpected_ret|].
  destruct (Byte.eqb c msgpcode.FixExt1 || Byte.eqb c msgpcode.FixExt2
            || Byte.eqb c msgpcode.FixExt4) eqn:Hext;
    [now apply never_unexpected_reference|].
  apply orb_false_iff in Hext as [Hext H4]. apply orb_false_iff in Hext as [H1 H2].
  rewrite H1, H2, H4 in H. cbn [orb] in H.
  destruct (Byte.eqb c msgpcode.Str8); cbn [orb] in *.
  { apply never_unexpected_bind; [apply never_unexpected_uint8|].
    intros n. apply never_unexpected_decodeInternedStringWithLen. }
  destruct (Byte.eqb c msgpcode.Bin8); cbn [orb] in *.
  { apply never_unexpected_bind; [apply never_unexpected_uint8|].
    intros n. apply never_unexpected_decodeInternedStringWithLen. }
  destruct (Byte.eqb c msgpcode.Str16); cbn [orb] in *.
  { apply never_unexpected_bind; [apply never_unexpected_uint16|].
    intros n. apply never_unexpected_decodeInternedStringWithLen. }
  destruct (Byte.eqb c msgpcode.Bin16); cbn [orb] in *.
  { apply never_unexpected_bind; [apply never_unexpected_uint16|].
    intros n. apply never_unexpected_decodeInternedStringWithLen. }
  destruct (Byte.eqb c msgpcode.Str32); cbn [orb] in *.
  { apply never_unexpected_bind; [apply never_unexpected_uint32|].
    intros n. apply never_unexpected_decodeInternedStringWithLen. }
  destruct (Byte.eqb c msgpcode.Bin32); cbn [orb] in *.
  { apply never_unexpected_bind; [apply never_unexpected_uint32|].
    intros n. apply never_unexpected_decodeInternedStringWithLen. }
  discriminate H.
Qed.

(** X7. [decodeInternedString] answers with the unexpected-code error
    exactly for the code bytes it has no case for, whatever the input
    and the flag: a fixed string, nil, a fixed extension of width 1, 2 or
    4 and the 8-, 16- and 32-bit string and binary codes never produce
    it, and every other code produces it with the decoder untouched. *)
Theorem decodeInternedString_unexpected_iff (c : byte) (intern : bool) (d : Decoder) :
  (fst (decodeInternedString c intern d) = Err errUnexpectedCode <->
   string_code c = false) /\
  (string_code c = false ->
   decodeInternedString c intern d = (Err errUnexpectedCode, d)).
Proof.
  assert (Hno : string_code c = false ->
                decodeInternedString c intern d = (Err errUnexpectedCode, d))
    by (intros H; now rewrite decodeInternedString_no_case).
  split; [|exact Hno]. split.
  - intros He. destruct (string_code c) eqn:Hc; [|reflexivity].
    exfalso. exact (decodeInternedString_has_case c intern Hc d He).
  - intros H. now rewrite Hno.
Qed.

(** ** The string-only entry point *)

Lemma decodeInternedStringValue_never_unexpected :
  never_unexpected decodeInternedStringValue.
Proof.
  intros d. unfold decodeInternedStringValue, bind.
  destruct (readCode d) as [[c|e] d1] eqn:Hc; cbn [fst].
  - destruct (decodeInternedString c true d1) as [[s|err] d2]; [discriminate|].
    destruct err; cbn [is_errUnexpectedCode]; discriminate.
  - intros H. injection H as ->. apply (never_unexpected_ReadByte d).
    unfold readCode in Hc. rewrite Hc. reflexivity.
Qed.

(** X8. The string-only entry point, given a code byte that is none of
    the string decoder's, fails with the invalid-code error that carries
    that byte; only the code byte is consumed and the dictionary is left
    as it was.  It never lets the unexpected-code error out, on any
    input. *)
Theorem decodeInternedStringValue_invalid_code (c : byte) (dict : list string)
    (dn rest : list byte) :
  string_code c = false ->
  decodeInternedStringValue (mkDecoder dict (mkReader dn (c :: rest))) =
    (Err (ErrInvalidCode c), mkDecoder dict (mkReader (c :: dn) rest)) /\
  forall d, fst (decodeInternedStringValue d) <> Err errUnexpectedCode.
Proof.
  intros Hc. split; [|exact decodeInternedStringValue_never_unexpected].
  unfold decodeInternedStringValue, bind. rewrite readCode_cons.
  rewrite (decodeInternedString_no_case c true Hc). reflexivity.
Qed.

Lemma decodeInternedStringValue_invalid_code_witness :
  string_code x2a = false /\
  decodeInternedStringValue (mkDecoder ["abc"%string] (mkReader [] (x2a :: [xc0]))) =
    (Err (ErrInvalidCode x2a), mkDecoder ["abc"%string] (mkReader (x2a :: []) [xc0])) /\
  forall d, fst (decodeInternedStringValue d) <> Err errUnexpectedCode.
Proof.
  split; [reflexivity|].
  exact (decodeInternedStringValue_invalid_code x2a ["abc"%string] [] [xc0] eq_refl).
Defined.

(** ** The reference codec on its own *)

(** X6. The index codec round-trips over the whole 32-bit range, also
    for the indices above 65,535 that the dictionary cap keeps out of
    reach: what [encodeInternedStringIndex] writes for an index up to
    4,294,967,295 is read back by [extHeader] as the reserved type and by
    [decodeInternedStringIndex] as the same index, consuming exactly the
    bytes written. *)
Theorem reference_codec_round_trip (idx : Z) (e : Encoder) (dict : list string)
    (dn rest : list byte) :
  0 <= idx <= MaxUint32 ->
  exists c tl,
    encodeInternedStringIndex idx e = (Ok tt, mkEncoder (e_dict e) (e_w e ++ c :: tl)) /\
    (h <- extHeader c ;;
     i <- decodeInternedStringIndex (snd h) ;;
     ret (fst h, i)) (mkDecoder dict (mkReader (c :: dn) (tl ++ rest))) =
      (Ok (internedStringExtID, idx), mkDecoder dict (mkReader (rev tl ++ c :: dn) rest)).
Proof.
  intros Hidx.
  destruct (reference_bytes_shape idx Hidx) as (c & payload & Hshape & Hval & Henv).
  exists c, (reserved_tag :: payload). split.
  - rewrite encodeInternedStringIndex_write by exact Hidx. now rewrite Hshape.
  - assert (Hlen : (List.length payload = 1 \/ List.length payload = 2
                    \/ List.length payload = 4)%nat)
      by (destruct Henv as [[_ H]|[[_ H]|[_ H]]]; auto).
    pose proof (decodeInternedStringIndex_payload payload rest (reserved_tag :: c :: dn)
                  dict Hlen) as Hdec.
    cbn [app rev]. rewrite <- app_assoc. cbn [app].
    destruct Henv as [[-> H]|[[-> H]|[-> H]]]; rewrite H in Hdec;
      try change (Z.of_nat 1) with 1 in Hdec;
      try change (Z.of_nat 2) with 2 in Hdec;
      try change (Z.of_nat 4) with 4 in Hdec;
      unfold bind at 1;
      [ rewrite (extHeader_fixed _ _ 1) by (left; reflexivity)
      | rewrite (extHeader_fixed _ _ 2) by (right; left; reflexivity)
      | rewrite (extHeader_fixed _ _ 4) by (right; right; reflexivity) ];
      cbn [fst snd]; unfold bind; rewrite Hdec; unfold ret; rewrite Hval;
      reflexivity.
Qed.

Lemma reference_codec_round_trip_witness :
  0 <= 70000 <= MaxUint32 /\
  exists c tl,
    encodeInternedStringIndex 70000 NewEncoder =
      (Ok tt, mkEncoder (e_dict NewEncoder) (e_w NewEncoder ++ c :: tl)) /\
    (h <- extHeader c ;;
     i <- decodeInternedStringIndex (snd h) ;;
     ret (fst h, i)) (mkDecoder [] (mkReader (c :: []) (tl ++ [xc0]))) =
      (Ok (internedStringExtID, 70000), mkDecoder [] (mkReader (rev tl ++ c :: []) [xc0])).
Proof.
  assert (H : 0 <= 70000 <= MaxUint32) by (unfold MaxUint32; lia).
  split; [exact H|].
  exact (reference_codec_round_trip 70000 NewEncoder [] [] [xc0] H).
Defined.

(** X14. [encodeInternedStringIndex] has no lower bound: a negative
    index passes the first test and is written in the one-byte form,
    with its low eight bits as the payload. *)
Theorem encodeInternedStringIndex_negative (idx : Z) (e : Encoder) :
  idx < 0 ->
  encodeInternedStringIndex idx e =
    (Ok tt, mkEncoder (e_dict e)
              (e_w e ++ [msgpcode.FixExt1; reserved_tag; byte_of_Z idx])).
Proof.
  intros Hneg. unfold encodeInternedStringIndex, MaxUint8.
  destruct (Z.leb_spec idx 255); [|lia].
  unfold bind, writeCode, write1, write. cbn [e_dict e_w].
  rewrite <- app_assoc. cbn [app].
  replace (byte_of_Z (idx mod 2 ^ 8)) with (byte_of_Z idx); [reflexivity|].
  apply byte_to_Z_inj. rewrite !byte_to_of_Z.
  change (2 ^ 8) with 256. now rewrite Z.mod_mod by lia.
Qed.

Lemma encodeInternedStringIndex_negative_witness :
  -1 < 0 /\
  encodeInternedStringIndex (-1) NewEncoder =
    (Ok tt, mkEncoder (e_dict NewEncoder)
              (e_w NewEncoder ++ [msgpcode.FixExt1; reserved_tag; byte_of_Z (-1)])).
Proof.
  split; [lia|]. apply (encodeInternedStringIndex_negative (-1) NewEncoder). lia.
Defined.

(** ** Literals in every length-prefixed form *)

(** X11. The decoder takes a literal in any of the length-prefixed
    forms, string or binary, minimal or not: after an 8-, 16- or 32-bit
    string or binary code, a big-endian length of that width and that
    many bytes, it returns those bytes as the string and records it as
    for a fixed string (interning on, at least three bytes, dictionary
    not full).  A binary value thus enters the dictionary like a
    string. *)
Theorem decodeInternedString_prefixed_literal (c : byte) (hdr : list byte)
    (s : string) (intern : bool) (dict : list string) (dn rest : list byte) :
  prefixed_literal c hdr ->
  be_value hdr = len s ->
  decodeInternedString c intern
      (mkDecoder dict (mkReader dn (hdr ++ bytes_of_string s ++ rest))) =
    (Ok s, mkDecoder (learn intern s dict)
             (mkReader (rev (bytes_of_string s) ++ rev hdr ++ dn) rest)).
Proof.
  intros Hform Hval.
  pose proof (decodeInternedStringWithLen_payload s intern dict) as Hpay.
  destruct Hform as [[Hc Hl]|[[Hc Hl]|[Hc Hl]]].
  - destruct hdr as [|b0 [|? ?]]; try discriminate Hl.
    assert (Hn : byte_to_Z b0 = len s)
      by (unfold be_value in Hval; cbn [fold_left] in Hval; lia).
    destruct Hc as [-> | ->]; unfold decodeInternedString; decide_guards;
      unfold bind at 1, uint8, bind at 1; cbn [app];
      rewrite readCode_cons; unfold ret at 1; rewrite Hn, Hpay; reflexivity.
  - destruct hdr as [|b0 [|b1 [|? ?]]]; try discriminate Hl.
    rewrite <- BigEndian_Uint16_value in Hval.
    destruct Hc as [-> | ->]; unfold decodeInternedString; decide_guards;
      unfold bind at 1, uint16, bind at 1; cbn [app];
      rewrite readN_2; unfold ret at 1; rewrite Hval, Hpay; reflexivity.
  - destruct hdr as [|b0 [|b1 [|b2 [|b3 [|? ?]]]]]; try discriminate Hl.
    rewrite <- BigEndian_Uint32_value in Hval.
    destruct Hc as [-> | ->]; unfold decodeInternedString; decide_guards;
      unfold bind at 1, uint32, bind at 1; cbn [app];
      rewrite readN_4; unfold ret at 1; rewrite Hval, Hpay; reflexivity.
Qed.

Lemma decodeInternedString_prefixed_literal_witness :
  prefixed_literal xc5 [x00; x03] /\ be_value [x00; x03] = len "abc" /\
  decodeInternedString xc5 true
      (mkDecoder [] (mkReader [xc5] ([x00; x03] ++ bytes_of_string "abc" ++ [xc0]))) =
    (Ok "abc"%string,
     mkDecoder (learn true "abc" [])
       (mkReader (rev (bytes_of_string "abc") ++ rev [x00; x03] ++ [xc5]) [xc0])).
Proof.
  assert (H1 : prefixed_literal xc5 [x00; x03])
    by (right; left; split; [right|]; reflexivity).
  assert (H2 : be_value [x00; x03] = len "abc") by reflexivity.
  split; [exact H1|]. split; [exact H2|].
  exact (decodeInternedString_prefixed_literal xc5 [x00; x03] "abc"%string true []
           [xc5] [xc0] H1 H2).
Defined.

(** ** Interface values *)

Lemma decodeInternedString_foreign_tag (c tag : byte) (intern : bool)
    (rest dn : list byte) (dict : list string) :
  c = msgpcode.FixExt1 \/ c = msgpcode.FixExt2 \/ c = msgpcode.FixExt4 ->
  int8_of_byte tag <> internedStringExtID ->
  decodeInternedString c intern (mkDecoder dict (mkReader dn (tag :: rest))) =
    (Err (ErrExtType (int8_of_byte tag)), mkDecoder dict (mkReader (tag :: dn) rest)).
Proof.
  intros Hc Htag.
  destruct Hc as [-> | [-> | ->]];
    unfold decodeInternedString; decide_guards;
    unfold bind at 1;
    [ rewrite (extHeader_fixed _ _ 1) by (left; reflexivity)
    | rewrite (extHeader_fixed _ _ 2) by (right; left; reflexivity)
    | rewrite (extHeader_fixed _ _ 4) by (right; right; reflexivity) ];
    cbv beta iota;
    (destruct (Z.eqb_spec (int8_of_byte tag) internedStringExtID) as [Heq|_];
     [contradiction|reflexivity]).
Qed.

(** X10. The interface-typed entry point does not hand an application's
    own extension value to the generic decoder when it comes in a fixed
    extension of width 1, 2 or 4: it fails with the extension-type error
    after reading the code and the tag, whatever the generic decoder
    is. *)
Theorem decodeInternedInterfaceValue_foreign_extension (value : Type)
    (ValueOf : string -> value) (decodeInterfaceValue : M Decoder value)
    (c tag : byte) (dict : list string) (dn rest : list byte) :
  c = msgpcode.FixExt1 \/ c = msgpcode.FixExt2 \/ c = msgpcode.FixExt4 ->
  int8_of_byte tag <> internedStringExtID ->
  decodeInternedInterfaceValue value ValueOf decodeInterfaceValue
      (mkDecoder dict (mkReader dn (c :: tag :: rest))) =
    (Err (ErrExtType (int8_of_byte tag)),
     mkDecoder dict (mkReader (tag :: c :: dn) rest)).
Proof.
  intros Hc Htag.
  unfold decodeInternedInterfaceValue, bind at 1. rewrite readCode_cons.
  cbv beta iota.
  rewrite (decodeInternedString_foreign_tag c tag true rest (c :: dn) dict Hc Htag).
  reflexivity.
Qed.

Lemma decodeInternedInterfaceValue_foreign_extension_witness :
  (xd4 = msgpcode.FixExt1 \/ xd4 = msgpcode.FixExt2 \/ xd4 = msgpcode.FixExt4) /\
  int8_of_byte x05 <> internedStringExtID /\
  decodeInternedInterfaceValue (string + Z) inl decodeOneByte
      (mkDecoder [] (mkReader [] (xd4 :: x05 :: [x2a]))) =
    (Err (ErrExtType (int8_of_byte x05)),
     mkDecoder [] (mkReader (x05 :: xd4 :: []) [x2a])).
Proof.
  assert (H1 : xd4 = msgpcode.FixExt1 \/ xd4 = msgpcode.FixExt2 \/ xd4 = msgpcode.FixExt4)
    by (left; reflexivity).
  assert (H2 : int8_of_byte x05 <> internedStringExtID) by (vm_compute; discriminate).
  split; [exact H1|]. split; [exact H2|].
  exact (decodeInternedInterfaceValue_foreign_extension (string + Z) inl decodeOneByte
           xd4 x05 [] [] [x2a] H1 H2).
Defined.

Lemma decodeInternedInterfaceValue_string (value : Type) (ValueOf : string -> value)
    (decodeInterfaceValue : M Decoder value) (d d' : Decoder) (s : string) :
  decodeInternedStringValue d = (Ok s, d') ->
  decodeInternedInterfaceValue value ValueOf decodeInterfaceValue d = (Ok (ValueOf s), d').
Proof.
  unfold decodeInternedStringValue, decodeInternedInterfaceValue, bind.
  destruct (readCode d) as [[c|e] d1]; [|discriminate].
  destruct (decodeInternedString c true d1) as [[s0|err] d2].
  - intros H. injection H as <- <-. reflexivity.
  - destruct (is_errUnexpectedCode err); discriminate.
Qed.

(** X9. Interface values through both entry points, from mirrored
    dictionaries.  A string value shorter than 2^32 bytes written by
    [encodeInternedInterfaceValue] is read back by
    [decodeInternedInterfaceValue] as that string, and the dictionaries
    mirror again.  A nil value is written as the nil code and read back
    as the empty string, not as nil, with both dictionaries untouched.
    In neither case is the generic decoder consulted. *)
Theorem interface_value_round_trip (V value : Type)
    (EncodeValue : V -> M Encoder unit) (ValueOf : string -> value)
    (decodeInterfaceValue : M Decoder value)
    (e : Encoder) (dd : list string) (dn rest : list byte) :
  mirror (e_dict e) dd ->
  (forall s, len s < 2 ^ 32 ->
     exists chunk ed' dd',
       encodeInternedInterfaceValue V EncodeValue (IString s) e =
         (Ok tt, mkEncoder ed' (e_w e ++ chunk)) /\
       decodeInternedInterfaceValue value ValueOf decodeInterfaceValue
           (mkDecoder dd (mkReader dn (chunk ++ rest))) =
         (Ok (ValueOf s), mkDecoder dd' (mkReader (rev chunk ++ dn) rest)) /\
       mirror ed' dd') /\
  encodeInternedInterfaceValue V EncodeValue INil e =
    (Ok tt, mkEncoder (e_dict e) (e_w e ++ [msgpcode.Nil])) /\
  decodeInternedInterfaceValue value ValueOf decodeInterfaceValue
      (mkDecoder dd (mkReader dn (msgpcode.Nil :: rest))) =
    (Ok (ValueOf EmptyString), mkDecoder dd (mkReader (msgpcode.Nil :: dn) rest)).
Proof.
  intros Hm. split; [|split].
  - intros s Hlen.
    destruct (lockstep_step s e dd Hm Hlen) as (chunk & ed' & dd' & Henc & Hdec & Hm').
    exists chunk, ed', dd'. split; [exact Henc|]. split; [|exact Hm'].
    apply decodeInternedInterfaceValue_string. apply Hdec.
  - reflexivity.
  - apply decodeInternedInterfaceValue_string. reflexivity.
Qed.

Lemma interface_value_round_trip_witness :
  mirror (e_dict NewEncoder) [] /\
  encodeInternedInterfaceValue Z (fun _ => fail (ErrHost 0)) INil NewEncoder =
    (Ok tt, mkEncoder (e_dict NewEncoder) (e_w NewEncoder ++ [msgpcode.Nil])) /\
  decodeInternedInterfaceValue (string + Z) inl decodeOneByte
      (mkDecoder [] (mkReader [] (msgpcode.Nil :: [x2a]))) =
    (Ok (inl EmptyString), mkDecoder [] (mkReader (msgpcode.Nil :: []) [x2a])).
Proof.
  split; [exact mirror_empty|].
  exact (proj2 (interface_value_round_trip Z (string + Z) (fun _ => fail (ErrHost 0))
                  inl decodeOneByte NewEncoder [] [] [x2a] mirror_empty)).
Defined.

(** ** The decoder registered for the reserved extension type *)

(** X15. [decodeInternedStringExt], the decoder registered for the
    reserved extension type, never changes the dictionary.  Called with a
    payload length other than 1, 2 or 4 it fails with the
    unsupported-length error without reading anything; with 1, 2 or 4 its
    only errors are the index-does-not-exist error, raised exactly when
    the decoded index is not below the dictionary size, and the
    end-of-input errors of the byte source. *)
Theorem decodeInternedStringExt_behaviour (extLen : Z) (d : Decoder) :
  d_dict (snd (decodeInternedStringExt extLen d)) = d_dict d /\
  (extLen <> 1 -> extLen <> 2 -> extLen <> 4 ->
   decodeInternedStringExt extLen d = (Err (ErrIndexLength extLen), d)) /\
  (extLen = 1 \/ extLen = 2 \/ extLen = 4 ->
   forall e, fst (decodeInternedStringExt extLen d) = Err e ->
             io_error e \/
             exists idx, Z.of_nat (List.length (d_dict d)) <= idx /\
                         e = ErrIndexMissing idx).
Proof.
  split; [|split].
  - apply (keeps_dict_bind (decodeInternedStringIndex extLen)
             (fun idx => internedStringAtIndex idx)).
    + apply keeps_dict_decodeInternedStringIndex.
    + intros idx. apply keeps_dict_internedStringAtIndex.
  - intros H1 H2 H4. unfold decodeInternedStringExt, bind, decodeInternedStringIndex.
    destruct (Z.eqb_spec extLen 1); [contradiction|].
    destruct (Z.eqb_spec extLen 2); [contradiction|].
    destruct (Z.eqb_spec extLen 4); [contradiction|]. reflexivity.
  - intros Hl e He. unfold decodeInternedStringExt, bind in He.
    pose proof (post_decodeInternedStringIndex extLen Hl d) as Hidx.
    pose proof (keeps_dict_decodeInternedStringIndex extLen d) as Hd.
    destruct (decodeInternedStringIndex extLen d) as [[idx|e1] d1];
      cbn [fst snd] in *.
    + right. exists idx. unfold internedStringAtIndex in He. rewrite Hd in He.
      destruct (Z.leb_spec (Z.of_nat (List.length (d_dict d))) idx) as [Hge|Hlt].
      * cbn [fst] in He. injection He as <-. auto.
      * exfalso. destruct (Z.ltb_spec idx 0); [lia|].
        destruct (d_dict d !! Z.to_nat idx) eqn:E; [discriminate He|].
        apply lookup_ge_None in E. lia.
    + left. injection He as <-. exact Hidx.
Qed.

(** ** Indices in first-seen order *)

Lemma fold_intern_next_lookup (l : list string) :
  forall (m : gmap string Z) (c : Z) (n : nat) (s : string),
    List.NoDup l -> l !! n = Some s ->
    fst (fold_left intern_next l (m, c)) !! s = Some (c + Z.of_nat n).
Proof.
  induction l as [|k l IH]; intros m c n s Hnd Hn; [discriminate Hn|].
  apply List.NoDup_cons_iff in Hnd as [Hnotin Hnd].
  cbn [fold_left]. unfold intern_next at 2. cbn [fst snd].
  destruct n as [|n]; cbn in Hn.
  - injection Hn as ->.
    assert (Hkeep : forall l0 m0 c0, ~ In s l0 -> m0 !! s = Some c ->
              fst (fold_left intern_next l0 (m0, c0)) !! s = Some c).
    { clear. induction l0 as [|k l0 IH]; intros m0 c0 Hnotin Hs; [exact Hs|].
      cbn [fold_left]. unfold intern_next at 2. cbn [fst snd].
      apply IH; [intros H; apply Hnotin; now right|].
      rewrite lookup_insert_ne; [exact Hs|]. intros ->. apply Hnotin. now left. }
    rewrite Z.add_0_r. apply Hkeep; [exact Hnotin|apply lookup_insert_eq].
  - rewrite (IH _ _ n s Hnd Hn). f_equal. lia.
Qed.

(** X16. Indices are given in first-seen order starting at 0: when a
    fresh encoder is offered at most 65,535 distinct strings of at least
    three bytes, each is written as its literal and the string offered
    in position [n] is recorded at index [n]. *)
Theorem indices_in_first_seen_order (l : list string) :
  List.NoDup l ->
  Forall (fun s => minInternedStringLen <= len s) l ->
  Z.of_nat (List.length l) <= maxDictLen ->
  let e := snd (EncodeStrings l NewEncoder) in
  fst (EncodeStrings l NewEncoder) = Ok tt /\
  e_w e = concat (map literal_bytes l) /\
  forall n s, l !! n = Some s -> e_dict e !! s = Some (Z.of_nat n).
Proof.
  intros Hnd Hall Hcap. cbv zeta.
  rewrite EncodeStrings_fresh.
  - cbn [fst snd e_w e_dict NewEncoder app]. split; [reflexivity|].
    split; [reflexivity|]. intros n s Hn.
    rewrite (fold_intern_next_lookup l _ _ n s Hnd Hn), map_size_empty.
    f_equal; lia.
  - exact Hnd.
  - intros s Hin. split; [|apply lookup_empty].
    rewrite Forall_forall in Hall. apply Hall. now apply list_elem_of_In.
  - cbn [NewEncoder e_dict]. rewrite map_size_empty. lia.
Qed.

Lemma indices_in_first_seen_order_witness :
  let l := ["alpha"; "beta"; "gamma"]%string in
  (List.NoDup l /\ Forall (fun s => minInternedStringLen <= len s) l /\
   Z.of_nat (List.length l) <= maxDictLen) /\
  let e := snd (EncodeStrings l NewEncoder) in
  fst (EncodeStrings l NewEncoder) = Ok tt /\
  e_w e = concat (map literal_bytes l) /\
  forall n s, l !! n = Some s -> e_dict e !! s = Some (Z.of_nat n).
Proof.
  cbv zeta.
  assert (H1 : List.NoDup ["alpha"; "beta"; "gamma"]%string).
  { repeat constructor; cbn; intros H;
      repeat (destruct H as [H|H]; [discriminate H|]); exact H. }
  assert (H2 : Forall (fun s => minInternedStringLen <= len s)
                 ["alpha"; "beta"; "gamma"]%string)
    by (repeat constructor; vm_compute; discriminate).
  assert (H3 : Z.of_nat (List.length ["alpha"; "beta"; "gamma"]%string) <= maxDictLen)
    by (vm_compute; discriminate).
  split; [auto|].
  exact (indices_in_first_seen_order ["alpha"; "beta"; "gamma"]%string H1 H2 H3).
Defined.
